(** * Namespace locks of the object gateway: [cmd/namespace-lock.go]

    A shallow embedding of the namespace lock registry ([NsLockMap]), of the
    two lock instances it hands out ([localLockInstance], [distLockInstance])
    and of their acquire / release protocol, followed by the properties the
    specification states about them.

    The embedding is sequential.  Every critical section of the registry
    (the code between [lockMapMutex.Lock()] and [lockMapMutex.Unlock()]) is
    one function on the registry map.  While a goroutine waits inside a
    per-resource mutex, other goroutines run: they let time pass, log
    outcomes to the shared [DynamicTimeout], cancel contexts and, for the
    distributed backend, decide what the peer quorum answers.  That
    interference is an explicit oracle ([env]) consumed one step per blocking
    call; it never touches the registry map itself. *)

From Stdlib Require Import ZArith Lia.
From Stdlib Require Import Sorting.Sorted.
From stdpp Require Import base option list strings gmap.

#[local] Open Scope Z_scope.

(** ** Machine integers and time *)

Definition MaxInt32 : Z := 2147483647.
Definition MinInt32 : Z := -2147483648.

(** Go's [int32] arithmetic wraps around: the result of [ref++] and [ref--]
    is the mathematical result reduced into [MinInt32 .. MaxInt32]. *)
Definition int32 (z : Z) : Z := (z + 2147483648) mod 4294967296 - 2147483648.

Definition maxDuration : Z := 9223372036854775807.
Definition minDuration : Z := -9223372036854775808.

(** [time.Time.Sub]: a [time.Duration] in nanoseconds, saturating at the
    ends of the [int64] range. *)
Definition Time_Sub (t u : Z) : Z := Z.max minDuration (Z.min maxDuration (t - u)).

(** ** Contexts and errors *)

(** A [context.Context] is either one the caller brought along or the child
    that [context.WithCancel] derives from a parent. *)
Inductive Context : Type :=
  | CtxRoot (name : string)
  | CtxWithCancel (parent : Context).

#[global] Instance Context_eq_dec : EqDecision Context.
Proof. solve_decision. Defined.

(** A context is done when it was cancelled itself or an ancestor was. *)
Fixpoint ctxDone (cancelled : list Context) (c : Context) : bool :=
  bool_decide (c ∈ cancelled) ||
  match c with
  | CtxRoot _ => false
  | CtxWithCancel p => ctxDone cancelled p
  end.

(** The error surface: Go's [error] is [option error], [nil] is [None]. *)
Inductive error : Type := OperationTimedOut.

(** ** The local reader-writer mutex *)

(** Modelled from the spec: [lsync.LRWMutex] (package [pkg/lsync] is not
    among the sources).  The spec's LocalRWMutex tracks the writer-held state
    and the reader count; operation ID and source location are diagnostics
    only and are left out. *)
Record LRWMutex : Type := mkLRWMutex {
  isWriteLock : bool;
  readers : N }.

Definition NewLRWMutex : LRWMutex := mkLRWMutex false 0.

(** Modelled from the spec: [LRWMutex.GetLock].  It grants the exclusive
    lock, or returns [false] after the timeout elapsed or the context was
    cancelled.  With no other goroutine releasing in between, a mutex that
    is held in a conflicting mode stays so until the timeout. *)
Definition LRWMutex_GetLock (done : bool) (timeout : Z) (lm : LRWMutex)
  : bool * LRWMutex :=
  if done || (timeout <=? 0) then (false, lm)
  else if negb (isWriteLock lm) && (readers lm =? 0)%N
       then (true, mkLRWMutex true 0)
       else (false, lm).

(** Modelled from the spec: [LRWMutex.GetRLock], the shared lock with the
    same waiting discipline. *)
Definition LRWMutex_GetRLock (done : bool) (timeout : Z) (lm : LRWMutex)
  : bool * LRWMutex :=
  if done || (timeout <=? 0) then (false, lm)
  else if negb (isWriteLock lm)
       then (true, mkLRWMutex (isWriteLock lm) (readers lm + 1))
       else (false, lm).

(** Modelled from the spec: [LRWMutex.Unlock].  Releasing a mutex that is
    not held in the matching mode is a fatal condition ([None]). *)
Definition LRWMutex_Unlock (lm : LRWMutex) : option LRWMutex :=
  if isWriteLock lm then Some (mkLRWMutex false 0) else None.

(** Modelled from the spec: [LRWMutex.RUnlock]. *)
Definition LRWMutex_RUnlock (lm : LRWMutex) : option LRWMutex :=
  if negb (isWriteLock lm) && (0 <? readers lm)%N
  then Some (mkLRWMutex (isWriteLock lm) (readers lm - 1))
  else None.

(** The branch on [readLock] that [NsLockMap.lock] (lines 90-94) and
    [NsLockMap.unlock] (lines 122-126) make before they call the mutex. *)
Definition mutexAcquire (readLock done : bool) (timeout : Z) (lm : LRWMutex)
  : bool * LRWMutex :=
  if readLock then LRWMutex_GetRLock done timeout lm
  else LRWMutex_GetLock done timeout lm.

Definition mutexRelease (readLock : bool) (lm : LRWMutex) : option LRWMutex :=
  if readLock then LRWMutex_RUnlock lm else LRWMutex_Unlock lm.

(** ** The registry *)

(** [nsLock]: a reference count and the embedded mutex. *)
Record nsLock : Type := mkNsLock {
  ref : Z;
  mu : LRWMutex }.

(** [NsLockMap]: a [nil] map is [None].  The registry mutex is not a field
    of the model: each critical section is one function below. *)
Record NsLockMap : Type := mkNsLockMap {
  isDistErasure : bool;
  lockMap : option (gmap string nsLock) }.

(** [NewNSLock(isDistErasure)]: the map is only made for the local backend. *)
Definition NewNSLock (isDistErasure : bool) : NsLockMap :=
  let nsMutex := mkNsLockMap isDistErasure None in
  if isDistErasure then nsMutex
  else mkNsLockMap (isDistErasure) (Some ∅).

(** ** Observable calls *)

Inductive Event : Type :=
  | EvTimeout (d : Z)
      (* DynamicTimeout.Timeout() was read and returned d *)
  | EvLogSuccess (d : Z)
  | EvLogFailure
  | EvAcquire (resource : string) (readLock : bool) (timeout : Z) (locked : bool)
      (* LRWMutex.GetLock / GetRLock on the entry of the resource *)
  | EvRelease (resource : string) (readLock : bool)
      (* LRWMutex.Unlock / RUnlock on the entry of the resource *)
  | EvDistAcquire (names : list string) (ctx : Context) (readLock : bool)
      (timeout : Z) (locked : bool)
      (* DRWMutex.GetLock / GetRLock *)
  | EvDistRelease (names : list string) (readLock : bool).

(** ** What other goroutines do during one blocking call *)

Inductive DTCall : Type :=
  | OtherLogSuccess (d : Z)
  | OtherLogFailure.

Record EnvStep : Type := mkEnvStep {
  elapsed : Z;                (* time that passes *)
  dtCalls : list DTCall;      (* outcomes others log to the DynamicTimeout *)
  cancels : list Context;     (* contexts cancelled meanwhile *)
  quorum : bool }.            (* would the peer quorum grant (distributed) *)

Definition quietStep : EnvStep := mkEnvStep 0 [] [] false.

(** ** Collaborators that are not part of this file *)

(** The adaptive timeout controller, the path joiner and the caller
    inspection are used through their interface only. *)
Class Collaborators : Type := {
  DynamicTimeout : Type;
  Timeout : DynamicTimeout → Z;
  LogSuccess : Z → DynamicTimeout → DynamicTimeout;
  LogFailure : DynamicTimeout → DynamicTimeout;
  pathJoin : string → string → string;
  getSource : nat → string }.

Section Model.
Context `{Collaborators}.

Definition applyDTCall (c : DTCall) (d : DynamicTimeout) : DynamicTimeout :=
  match c with
  | OtherLogSuccess x => LogSuccess x d
  | OtherLogFailure => LogFailure d
  end.

(** Everything a call can read or change besides the registry. *)
Record Ambient : Type := mkAmbient {
  dt : DynamicTimeout;
  clock : Z;
  cancelled : list Context;
  env : list EnvStep }.

Record World : Type := mkWorld {
  ns : NsLockMap;
  amb : Ambient;
  trace : list Event }.

Definition nextStep (a : Ambient) : EnvStep := hd quietStep (env a).

Definition interfereA (a : Ambient) : Ambient :=
  let s := nextStep a in
  mkAmbient (foldl (λ d c, applyDTCall c d) (dt a) (dtCalls s))
            (clock a + elapsed s)
            (cancels s ++ cancelled a)
            (tl (env a)).

(** ** A state and panic monad *)

Inductive Res (A : Type) : Type :=
  | Ret (a : A) (w : World)
  | Panic (msg : string) (w : World).
Arguments Ret {A} a w.
Arguments Panic {A} msg w.

Definition M (A : Type) : Type := World → Res A.

#[global] Instance M_ret : MRet M := λ A a w, Ret a w.
#[global] Instance M_bind : MBind M := λ A B f c w,
  match c w with
  | Ret a w' => f a w'
  | Panic msg w' => Panic msg w'
  end.

Definition panic {A} (msg : string) : M A := λ w, Panic msg w.
Definition emit (e : Event) : M unit :=
  λ w, Ret tt (mkWorld (ns w) (amb w) (trace w ++ [e])).
Definition getMap : M (option (gmap string nsLock)) :=
  λ w, Ret (lockMap (ns w)) w.
Definition putMap (m : gmap string nsLock) : M unit :=
  λ w, Ret tt (mkWorld (mkNsLockMap (isDistErasure (ns w)) (Some m)) (amb w) (trace w)).
Definition getAmbient : M Ambient := λ w, Ret (amb w) w.
Definition putAmbient (a : Ambient) : M unit :=
  λ w, Ret tt (mkWorld (ns w) a (trace w)).

(** Other goroutines run; the step they took is returned. *)
Definition interfere : M EnvStep :=
  a ← getAmbient; putAmbient (interfereA a);; mret (nextStep a).

(** [UTCNow()]: a reading of the ambient clock.  The clock of the model
    advances while a call blocks, by what the step of the environment
    gives; the time that the code between two blocking calls takes is not
    modelled.  The statements below therefore name the readings of a call
    and assert nothing on how far apart two of them are. *)
Definition UTCNow : M Z := a ← getAmbient; mret (clock a).

(** [timeout.Timeout()], [timeout.LogSuccess(d)], [timeout.LogFailure()] on
    the shared controller. *)
Definition DT_Timeout : M Z :=
  a ← getAmbient; emit (EvTimeout (Timeout (dt a)));; mret (Timeout (dt a)).
Definition logSuccessA (d : Z) (a : Ambient) : Ambient :=
  mkAmbient (LogSuccess d (dt a)) (clock a) (cancelled a) (env a).
Definition logFailureA (a : Ambient) : Ambient :=
  mkAmbient (LogFailure (dt a)) (clock a) (cancelled a) (env a).
Definition DT_LogSuccess (d : Z) : M unit :=
  a ← getAmbient; putAmbient (logSuccessA d a);; emit (EvLogSuccess d).
Definition DT_LogFailure : M unit :=
  a ← getAmbient; putAmbient (logFailureA a);; emit EvLogFailure.

(** ** [NsLockMap.lock] and [NsLockMap.unlock] *)

Definition newNsLock : nsLock := mkNsLock 0 NewLRWMutex.

(** Modelled from the spec: [logger.CriticalIf] with a non-nil error
    (package [cmd/logger] is not among the sources).  The spec makes a
    negative reference count a fatal invariant violation: the caller does not
    continue. *)
Definition CriticalIf (msg : string) : M unit := panic msg.

(** First critical section of [lock] (lines 77-87): find or create the
    entry, [ref++], store it. *)
Definition lock_enter (resource : string) : M unit :=
  om ← getMap;
  match om with
  | None => panic "assignment to entry in nil map"
  | Some m =>
      let nsLk := default newNsLock (m !! resource) in
      let nsLk := mkNsLock (int32 (ref nsLk + 1)) (mu nsLk) in
      putMap (<[resource := nsLk]> m)
  end.

(** The blocking acquire on the entry's mutex (lines 90-94).  The entry is
    the one [lock_enter] stored; without it the pointer would be [nil]. *)
Definition lock_wait (resource : string) (ctx : Context)
    (opsID lockSource : string) (readLock : bool) (timeout : Z) : M bool :=
  interfere;;
  a ← getAmbient;
  om ← getMap;
  match om with
  | None => panic "invalid memory address or nil pointer dereference"
  | Some m =>
      match m !! resource with
      | None => panic "invalid memory address or nil pointer dereference"
      | Some nsLk =>
          let done := ctxDone (cancelled a) ctx in
          let r := mutexAcquire readLock done timeout (mu nsLk) in
          putMap (<[resource := mkNsLock (ref nsLk) r.2]> m);;
          emit (EvAcquire resource readLock timeout r.1);;
          mret r.1
      end
  end.

(** Second critical section of [lock] (lines 98-107), entered when the lock
    was not obtained: [ref--], the negative check, removal at zero. *)
Definition lock_leave (resource : string) : M unit :=
  om ← getMap;
  match om with
  | None => panic "invalid memory address or nil pointer dereference"
  | Some m =>
      match m !! resource with
      | None => panic "invalid memory address or nil pointer dereference"
      | Some nsLk =>
          let nsLk := mkNsLock (int32 (ref nsLk - 1)) (mu nsLk) in
          putMap (<[resource := nsLk]> m);;
          (if ref nsLk <? 0
           then CriticalIf "resource reference count was lower than 0"
           else mret tt);;
          if ref nsLk =? 0
          then putMap (delete resource (<[resource := nsLk]> m))
          else mret tt
      end
  end.

(** [NsLockMap.lock]. *)
Definition lock (ctx : Context) (volume path lockSource opsID : string)
    (readLock : bool) (timeout : Z) : M bool :=
  let resource := pathJoin volume path in
  lock_enter resource;;
  locked ← lock_wait resource ctx opsID lockSource readLock timeout;
  (if negb locked then lock_leave resource else mret tt);;
  mret locked.

(** [NsLockMap.unlock]: one critical section. *)
Definition unlock (volume path : string) (readLock : bool) : M unit :=
  let resource := pathJoin volume path in
  om ← getMap;
  match om with
  | None => mret tt
  | Some m =>
      match m !! resource with
      | None => mret tt
      | Some nsLk =>
          emit (EvRelease resource readLock);;
          match mutexRelease readLock (mu nsLk) with
          | None => panic "Trying to Unlock() while no Lock() is active"
          | Some lm =>
              let nsLk := mkNsLock (int32 (ref nsLk - 1)) lm in
              putMap (<[resource := nsLk]> m);;
              (if ref nsLk <? 0
               then CriticalIf "resource reference count was lower than 0"
               else mret tt);;
              if ref nsLk =? 0
              then putMap (delete resource (<[resource := nsLk]> m))
              else mret tt
          end
      end
  end.

(** ** Sorting of names *)

(** [sort.Strings]: ascending bytewise order.  The algorithm is Go's; any
    sorting function returns the same list, here by insertion. *)
Fixpoint insertString (x : string) (l : list string) : list string :=
  match l with
  | [] => [x]
  | y :: l' => if String.leb x y then x :: l else y :: insertString x l'
  end.

Definition sort_Strings (l : list string) : list string :=
  foldr insertString [] l.

(** ** The distributed lock instance *)

(** Modelled from the spec: [dsync.DRWMutex] (package [pkg/dsync] is not
    among the sources): an opaque handle whose state lives in the peer
    quorum.  The handle keeps the names it was made for. *)
Record DRWMutex : Type := mkDRWMutex { Names : list string }.

(** Modelled from the spec: [dsync.NewDRWMutex] (package [pkg/dsync] is not
    among the sources).  The spec gives the lock instance of either backend
    a sorted list of paths, put in order when the instance is made (data
    model, LockInstance; section 4.5, Construction), and
    [NsLockMap.NewNSLock] leaves through its distributed branch before its
    own [sort.Strings]: the names of a distributed instance are put in
    order here, by the same ascending bytewise order. *)
Definition NewDRWMutex (names : list string) : DRWMutex :=
  mkDRWMutex (sort_Strings names).

(** Modelled from the spec: [DRWMutex.GetLock] and [DRWMutex.GetRLock]
    report a plain boolean: the lock is granted when the context handed in
    is live, the timeout leaves time and the quorum grants. *)
Definition DRWMutex_acquire (dm : DRWMutex) (readLock : bool) (ctx : Context)
    (cancel : Context) (opsID lockSource : string) (timeout : Z) : M bool :=
  s ← interfere;
  a ← getAmbient;
  let locked := negb (ctxDone (cancelled a) ctx) && (0 <? timeout) && quorum s in
  emit (EvDistAcquire (Names dm) ctx readLock timeout locked);;
  mret locked.
Definition DRWMutex_GetLock dm := DRWMutex_acquire dm false.
Definition DRWMutex_GetRLock dm := DRWMutex_acquire dm true.

(** Modelled from the spec: [DRWMutex.Unlock] and [DRWMutex.RUnlock]. *)
Definition DRWMutex_Unlock (dm : DRWMutex) : M unit :=
  emit (EvDistRelease (Names dm) false).
Definition DRWMutex_RUnlock (dm : DRWMutex) : M unit :=
  emit (EvDistRelease (Names dm) true).

Record distLockInstance : Type := mkDistLockInstance {
  rwMutex : DRWMutex;
  di_opsID : string }.

(** [distLockInstance.GetLock].  [context.WithCancel(ctx)] yields the child
    [newCtx]; its [cancel] function is identified with the context it
    cancels. *)
Definition distLockInstance_GetLock (di : distLockInstance) (ctx : Context)
  : M (option Context * option error) :=
  let lockSource := getSource 2 in
  start ← UTCNow;
  let newCtx := CtxWithCancel ctx in
  let cancel := newCtx in
  t ← DT_Timeout;
  locked ← DRWMutex_GetLock (rwMutex di) newCtx cancel (di_opsID di) lockSource t;
  if negb locked then
    DT_LogFailure;;
    mret (Some ctx, Some OperationTimedOut)
  else
    now ← UTCNow;
    DT_LogSuccess (Time_Sub now start);;
    mret (Some newCtx, None).

Definition distLockInstance_Unlock (di : distLockInstance) : M unit :=
  DRWMutex_Unlock (rwMutex di).

(** [distLockInstance.GetRLock]: the mutex is handed [ctx], not [newCtx]. *)
Definition distLockInstance_GetRLock (di : distLockInstance) (ctx : Context)
  : M (option Context * option error) :=
  let lockSource := getSource 2 in
  start ← UTCNow;
  let newCtx := CtxWithCancel ctx in
  let cancel := newCtx in
  t ← DT_Timeout;
  locked ← DRWMutex_GetRLock (rwMutex di) ctx cancel (di_opsID di) lockSource t;
  if negb locked then
    DT_LogFailure;;
    mret (Some ctx, Some OperationTimedOut)
  else
    now ← UTCNow;
    DT_LogSuccess (Time_Sub now start);;
    mret (Some newCtx, None).

Definition distLockInstance_RUnlock (di : distLockInstance) : M unit :=
  DRWMutex_RUnlock (rwMutex di).

(** ** The local lock instance *)

(** [localLockInstance].  Its [ns] pointer is the registry of the world the
    operations run in. *)
Record localLockInstance : Type := mkLocalLockInstance {
  volume : string;
  paths : list string;
  li_opsID : string }.

(** The unwinding loop of [GetLock] / [GetRLock] (lines 217-221 and
    247-251): [for si, sint := range success]. *)
Fixpoint releaseGranted (li : localLockInstance) (readLock : bool)
    (si : nat) (success : list Z) : M unit :=
  match success with
  | [] => mret tt
  | sint :: rest =>
      (if sint =? 1 then
         match paths li !! si with
         | Some p => unlock (volume li) p readLock
         | None => panic "index out of range"
         end
       else mret tt);;
      releaseGranted li readLock (S si) rest
  end.

(** The acquiring loop [for i, path := range li.paths] with what follows it
    (lines 214-227 and 244-257).  [todo] are the paths from index [i] on. *)
Fixpoint acquirePaths (li : localLockInstance) (ctx : Context)
    (lockSource : string) (readLock : bool) (start : Z)
    (i : nat) (todo : list string) (success : list Z)
  : M (option Context * option error) :=
  match todo with
  | [] =>
      now ← UTCNow;
      DT_LogSuccess (Time_Sub now start);;
      mret (Some ctx, None)
  | path :: todo' =>
      t ← DT_Timeout;
      locked ← lock ctx (volume li) path lockSource (li_opsID li) readLock t;
      if negb locked then
        DT_LogFailure;;
        releaseGranted li readLock 0 success;;
        mret (None, Some OperationTimedOut)
      else
        acquirePaths li ctx lockSource readLock start (S i) todo' (<[i := 1]> success)
  end.

(** [localLockInstance.GetLock]. *)
Definition localLockInstance_GetLock (li : localLockInstance) (ctx : Context)
  : M (option Context * option error) :=
  let lockSource := getSource 2 in
  start ← UTCNow;
  let readLock := false in
  let success := replicate (length (paths li)) 0 in
  acquirePaths li ctx lockSource readLock start 0 (paths li) success.

(** [localLockInstance.GetRLock]. *)
Definition localLockInstance_GetRLock (li : localLockInstance) (ctx : Context)
  : M (option Context * option error) :=
  let lockSource := getSource 2 in
  start ← UTCNow;
  let readLock := true in
  let success := replicate (length (paths li)) 0 in
  acquirePaths li ctx lockSource readLock start 0 (paths li) success.

(** The loop of [Unlock] / [RUnlock]: [for _, path := range li.paths]. *)
Fixpoint unlockPaths (vol : string) (readLock : bool) (ps : list string) : M unit :=
  match ps with
  | [] => mret tt
  | path :: rest => unlock vol path readLock;; unlockPaths vol readLock rest
  end.

Definition localLockInstance_Unlock (li : localLockInstance) : M unit :=
  unlockPaths (volume li) false (paths li).

Definition localLockInstance_RUnlock (li : localLockInstance) : M unit :=
  unlockPaths (volume li) true (paths li).

(** ** [NsLockMap.NewNSLock] *)

(** Modelled from the spec: [pathsJoinPrefix] (defined outside the sources):
    every path joined to the volume, as a resource name is. *)
Definition pathsJoinPrefix (prefix : string) (elem : list string) : list string :=
  map (pathJoin prefix) elem.

(** The [RWLocker] interface and its two implementations. *)
Inductive RWLocker : Type :=
  | DistLocker (di : distLockInstance)
  | LocalLocker (li : localLockInstance).

(** [NsLockMap.NewNSLock].  [opsID] is what [mustGetUUID()] returned; the
    [lockers] factory of the distributed backend is the quorum oracle. *)
Definition NsLockMap_NewNSLock (n : NsLockMap) (opsID : string)
    (vol : string) (ps : list string) : RWLocker :=
  if isDistErasure n then
    let drwmutex := NewDRWMutex (pathsJoinPrefix vol ps) in
    DistLocker (mkDistLockInstance drwmutex opsID)
  else
    let ps := sort_Strings ps in
    LocalLocker (mkLocalLockInstance vol ps opsID).

Definition RWLocker_GetLock (l : RWLocker) (ctx : Context)
  : M (option Context * option error) :=
  match l with
  | DistLocker di => distLockInstance_GetLock di ctx
  | LocalLocker li => localLockInstance_GetLock li ctx
  end.

Definition RWLocker_GetRLock (l : RWLocker) (ctx : Context)
  : M (option Context * option error) :=
  match l with
  | DistLocker di => distLockInstance_GetRLock di ctx
  | LocalLocker li => localLockInstance_GetRLock li ctx
  end.

Definition RWLocker_Unlock (l : RWLocker) : M unit :=
  match l with
  | DistLocker di => distLockInstance_Unlock di
  | LocalLocker li => localLockInstance_Unlock li
  end.

Definition RWLocker_RUnlock (l : RWLocker) : M unit :=
  match l with
  | DistLocker di => distLockInstance_RUnlock di
  | LocalLocker li => localLockInstance_RUnlock li
  end.

(** Ascending bytewise order of adjacent elements. *)
Definition string_le (x y : string) : Prop := String.leb x y = true.

(** The names a lock instance will acquire, in the order it holds them. *)
Definition lockerPaths (l : RWLocker) : list string :=
  match l with
  | DistLocker di => Names (rwMutex di)
  | LocalLocker li => paths li
  end.

Definition paths_sorted (l : RWLocker) : Prop := Sorted string_le (lockerPaths l).

(** ** Vocabulary of the statements *)

(** The world a computation ends in, whether it returned or panicked. *)
Definition worldOf {A} (r : Res A) : World :=
  match r with
  | Ret _ w => w
  | Panic _ w => w
  end.

Definition negativeRefPanic {A} (r : Res A) : Prop :=
  ∃ w, r = Panic "resource reference count was lower than 0" w.

(** The reference count of a resource: that of its entry, [0] without one. *)
Definition refOf (m : gmap string nsLock) (resource : string) : Z :=
  match m !! resource with
  | Some e => ref e
  | None => 0
  end.

(** The registry invariant of the data model: an entry exists exactly when
    its count is positive, and counts are [int32] values. *)
Definition registry_ok (m : gmap string nsLock) : Prop :=
  ∀ resource,
    (is_Some (m !! resource) ↔ 0 < refOf m resource) ∧
    refOf m resource ≤ MaxInt32.

(** Counts leave room for [k] more acquires before [int32] wraps. *)
Definition headroom (k : Z) (m : gmap string nsLock) : Prop :=
  ∀ resource, refOf m resource + k ≤ MaxInt32.

(** A step of the registry ends, returning or not, in a registry that
    satisfies the invariant, and not in the fatal error of a negative count. *)
Definition ok_after {A} (r : Res A) : Prop :=
  (∃ m, lockMap (ns (worldOf r)) = Some m ∧ registry_ok m) ∧
  ¬ negativeRefPanic r.

(** The mutex is free to be granted in the mode. *)
Definition grantable (readLock : bool) (lm : LRWMutex) : Prop :=
  if readLock then isWriteLock lm = false
  else isWriteLock lm = false ∧ readers lm = 0%N.

(** The mutex after a grant in the mode. *)
Definition grantedMu (readLock : bool) (lm : LRWMutex) : LRWMutex :=
  if readLock then mkLRWMutex (isWriteLock lm) (readers lm + 1)
  else mkLRWMutex true 0.

(** The mutex is held in the mode. *)
Definition heldIn (readLock : bool) (lm : LRWMutex) : Prop :=
  if readLock then isWriteLock lm = false ∧ (0 < readers lm)%N
  else isWriteLock lm = true.

(** The resource has an entry whose mutex is held in the mode. *)
Definition heldAt (w : World) (readLock : bool) (resource : string) : Prop :=
  ∃ m e, lockMap (ns w) = Some m ∧ m !! resource = Some e ∧ heldIn readLock (mu e).

(** The entry of a resource after one more granted [lock]. *)
Definition acqEntry (readLock : bool) (o : option nsLock) : nsLock :=
  let e := default newNsLock o in
  mkNsLock (int32 (ref e + 1)) (grantedMu readLock (mu e)).

(** ... and after [k] of them on top of [o]. *)
Fixpoint stack (readLock : bool) (k : nat) (o : option nsLock) : option nsLock :=
  match k with
  | O => o
  | S k' => Some (acqEntry readLock (stack readLock k' o))
  end.

(** How many of the paths name the resource. *)
Definition cnt (vol resource : string) (ps : list string) : nat :=
  length (filter (λ p, pathJoin vol p = resource) ps).

(** The map holds, on top of [m0], one grant per path of [ps], each made on
    a mutex that was free for it. *)
Definition granted_on (m0 : gmap string nsLock) (readLock : bool) (vol : string)
    (ps : list string) (m : gmap string nsLock) : Prop :=
  ∀ resource,
    m !! resource = stack readLock (cnt vol resource ps) (m0 !! resource) ∧
    ∀ j, (j < cnt vol resource ps)%nat →
         grantable readLock (mu (default newNsLock (stack readLock j (m0 !! resource)))).

(** The ambient after [n] blocking calls. *)
Fixpoint interfereN (n : nat) (a : Ambient) : Ambient :=
  match n with
  | O => a
  | S n' => interfereN n' (interfereA a)
  end.

(** The events of a run of granted sub-acquires: each reads the timeout and
    hands it to the mutex. *)
Fixpoint grantEvents (readLock : bool) (vol : string) (a : Ambient)
    (ps : list string) : list Event :=
  match ps with
  | [] => []
  | p :: ps' =>
      EvTimeout (Timeout (dt a))
      :: EvAcquire (pathJoin vol p) readLock (Timeout (dt a)) true
      :: grantEvents readLock vol (interfereA a) ps'
  end.

Definition releaseEvents (readLock : bool) (vol : string) (ps : list string)
  : list Event :=
  map (λ q, EvRelease (pathJoin vol q) readLock) ps.

Definition isFailedAcquire (e : Event) : bool :=
  match e with
  | EvAcquire _ _ _ false => true
  | _ => false
  end.

(** Projections of a trace. *)
Definition timeoutReads (tr : list Event) : list Z :=
  omap (λ e, match e with EvTimeout d => Some d | _ => None end) tr.

Definition acquireTimeouts (tr : list Event) : list Z :=
  omap (λ e, match e with EvAcquire _ _ t _ => Some t | _ => None end) tr.

Definition logSuccesses (tr : list Event) : list Z :=
  omap (λ e, match e with EvLogSuccess d => Some d | _ => None end) tr.

Definition logFailures (tr : list Event) : nat :=
  length (omap (λ e, match e with EvLogFailure => Some tt | _ => None end) tr).

Definition grants (tr : list Event) : list (string * bool) :=
  omap (λ e, match e with EvAcquire r b _ true => Some (r, b) | _ => None end) tr.

Definition releases (tr : list Event) : list (string * bool) :=
  omap (λ e, match e with EvRelease r b => Some (r, b) | _ => None end) tr.

Definition distAcquires (tr : list Event) : list (list string * Context * bool) :=
  omap (λ e, match e with
             | EvDistAcquire names c b _ _ => Some (names, c, b)
             | _ => None
             end) tr.

(** A trace without [Timeout()] reads and without acquires. *)
Definition silent (tr : list Event) : Prop :=
  timeoutReads tr = [] ∧ acquireTimeouts tr = [].

(** Every acquire in the trace is handed the value of the [Timeout()] read
    just before it, and the reads follow the controller as the other
    goroutines leave it. *)
Inductive fresh_timeouts : Ambient → list Event → Prop :=
  | fresh_tail a tr :
      silent tr → fresh_timeouts a tr
  | fresh_read a :
      fresh_timeouts a [EvTimeout (Timeout (dt a))]
  | fresh_step a resource b locked tr :
      fresh_timeouts (interfereA a) tr →
      fresh_timeouts a (EvTimeout (Timeout (dt a))
                        :: EvAcquire resource b (Timeout (dt a)) locked :: tr).

(** The timeout was read once and every acquire of the trace was handed
    the value the controller had when the call started. *)
Definition timeout_captured_once (a : Ambient) (tr : list Event) : Prop :=
  length (timeoutReads tr) = 1%nat ∧
  Forall (λ t, t = Timeout (dt a)) (acquireTimeouts tr).

(** No other goroutine logs to the controller. *)
Definition quiet (a : Ambient) : Prop :=
  Forall (λ s, dtCalls s = []) (env a).

(** The entry of a resource in the registry of a world, if any. *)
Definition look (resource : string) (w : World) : option nsLock :=
  lockMap (ns w) ≫= (.!! resource).

(** A computation that, however it ends, leaves the entry of the resource
    and the backend flag of the registry as they were. *)
Definition keeps {A} (resource : string) (c : M A) : Prop :=
  ∀ w, look resource (worldOf (c w)) = look resource w ∧
       isDistErasure (ns (worldOf (c w))) = isDistErasure (ns w).

(** The sub-acquires recorded in a trace: resource, mode and outcome. *)
Definition acquires (tr : list Event) : list (string * bool * bool) :=
  omap (λ e, match e with
             | EvAcquire r b _ locked => Some (r, b, locked)
             | _ => None
             end) tr.

End Model.

Arguments Ret {_ A} a w.
Arguments Panic {_ A} msg w.

(** ** A concrete set of collaborators *)

(** Modelled from the spec: [DynamicTimeout] ([cmd/dynamic-timeouts.go] is
    not among the sources; only its tests are).  Section 4.1: a window of
    [dtWindow] outcomes; a window with a failure doubles the timeout up to
    the hard ceiling, a window of successes lowers it to twice the mean
    latency, never below the minimum. *)
Record SpecTimeout : Type := mkSpecTimeout {
  current : Z;
  minimum : Z;
  latencies : list Z;
  slot : nat;
  outcomes : nat;
  failures : nat }.

Definition dtWindow : nat := 256.
Definition hardCeiling : Z := 1800000000000.

Definition NewDynamicTimeout (initial min : Z) : SpecTimeout :=
  mkSpecTimeout initial min (replicate dtWindow initial) 0 0 0.

Definition closeWindow (d : SpecTimeout) : SpecTimeout :=
  if (outcomes d <? dtWindow)%nat then d
  else
    let mean := foldr Z.add 0 (latencies d) / Z.of_nat dtWindow in
    let cur := if (0 <? failures d)%nat
               then Z.min hardCeiling (2 * current d)
               else Z.max (minimum d) (Z.min (current d) (2 * mean)) in
    mkSpecTimeout cur (minimum d) (latencies d) (slot d) 0 0.

Definition specLogSuccess (x : Z) (d : SpecTimeout) : SpecTimeout :=
  closeWindow (mkSpecTimeout (current d) (minimum d)
                 (<[slot d := x]> (latencies d))
                 (S (slot d) mod dtWindow) (S (outcomes d)) (failures d)).

Definition specLogFailure (d : SpecTimeout) : SpecTimeout :=
  closeWindow (mkSpecTimeout (current d) (minimum d) (latencies d)
                 (slot d) (S (outcomes d)) (S (failures d))).

(** Modelled from the spec: [pathJoin] (defined outside the sources): the
    volume and the path joined with the separator. *)
Definition specPathJoin (vol path : string) : string := vol +:+ "/" +:+ path.

(** [getSource] where [runtime.Caller] reports no frame (lines 275-280). *)
Definition unknownSource (n : nat) : string := "[<unknown>:0:()]".

#[global] Instance specCollaborators : Collaborators := {|
  DynamicTimeout := SpecTimeout;
  Timeout := current;
  LogSuccess := specLogSuccess;
  LogFailure := specLogFailure;
  pathJoin := specPathJoin;
  getSource := unknownSource |}.

(** ** Worlds and instances used in the examples *)

Definition second : Z := 1000000000.

Definition ambient0 (steps : list EnvStep) : Ambient :=
  mkAmbient (NewDynamicTimeout (60 * second) second) 0 [] steps.

Definition world0 (m : gmap string nsLock) (steps : list EnvStep) : World :=
  mkWorld (mkNsLockMap false (Some m)) (ambient0 steps) [].

Definition requestCtx : Context := CtxRoot "request".

(** An instance on the paths [a] and [z] of the volume [b]; a registry
    where another holder owns the write lock on [b/z]; a registry where three
    readers hold [b/a]. *)
Definition instAZ : localLockInstance := mkLocalLockInstance "b" ["a"; "z"] "op-1".

Definition heldZ : gmap string nsLock :=
  {[ "b/z" := mkNsLock 1 (mkLRWMutex true 0) ]}.

Definition readA : gmap string nsLock :=
  {[ "b/a" := mkNsLock 3 (mkLRWMutex false 3) ]}.

(** A registry where [b/a] is read-locked by as many holders as an [int32]
    count can tell. *)
Definition fullA : gmap string nsLock :=
  {[ "b/a" := mkNsLock MaxInt32 (mkLRWMutex false 2147483647) ]}.

(** During one blocking call the other goroutines log a full window of
    failures to the controller. *)
Definition busyStep : EnvStep := mkEnvStep 5 (replicate dtWindow OtherLogFailure) [] false.

(** During one blocking call the peers grant. *)
Definition grantStep : EnvStep := mkEnvStep 5 [] [] true.

Definition distA : distLockInstance := mkDistLockInstance (NewDRWMutex ["b/a"]) "op-2".

(** The worlds the example calls end in. *)
Definition grantedAZ : World :=
  worldOf (localLockInstance_GetLock instAZ requestCtx (world0 ∅ [])).

Definition lockedA : World :=
  worldOf (lock requestCtx "b" "a" (getSource 2) "op-1" true second (world0 readA [])).

(** An instance that names the path [a] twice, and the fresh local
    registry. *)
Definition instAA : localLockInstance := mkLocalLockInstance "b" ["a"; "a"] "op-3".

Definition freshWorld : World := world0 ∅ [].

(** The world after the example instance acquired its two paths for
    reading on the registry with three readers of [b/a]. *)
Definition readAZ : World :=
  worldOf (localLockInstance_GetRLock instAZ requestCtx (world0 readA [])).

(** An instance that names the path [a] twice before [z], and a registry
    where [b/a] is read-locked by as many holders as an [int32] count can
    tell while another holder owns the write lock on [b/z]. *)
Definition instAAZ : localLockInstance :=
  mkLocalLockInstance "b" ["a"; "a"; "z"] "op-4".

Definition fullAheldZ : gmap string nsLock :=
  <[ "b/z" := mkNsLock 1 (mkLRWMutex true 0) ]> fullA.

(** * Properties *)

Section Properties.
Context `{Collaborators}.

Ltac munfold :=
  unfold interfere, UTCNow, DT_Timeout, DT_LogSuccess, DT_LogFailure,
    CriticalIf, mbind, M_bind, mret, M_ret, panic, emit, getMap, putMap,
    getAmbient, putAmbient in *.

#[local] Arguments interfereA : simpl never.
#[local] Arguments mutexAcquire : simpl never.
#[local] Arguments mutexRelease : simpl never.
#[local] Arguments acqEntry : simpl never.

(** ** Machine arithmetic and the mutex *)

Lemma int32_id z : MinInt32 ≤ z ≤ MaxInt32 → int32 z = z.
Proof.
  unfold MinInt32, MaxInt32, int32. intros Hz.
  rewrite Z.mod_small by lia. lia.
Qed.

Lemma int32_succ_pred z : int32 (int32 (z + 1) - 1) = int32 z.
Proof.
  unfold int32.
  replace ((z + 1 + 2147483648) mod 4294967296 - 2147483648 - 1 + 2147483648)
    with ((z + 1 + 2147483648) mod 4294967296 + (-1)) by lia.
  rewrite Zplus_mod_idemp_l. f_equal. f_equal. lia.
Qed.

Lemma int32_range z : MinInt32 ≤ int32 z ≤ MaxInt32.
Proof.
  unfold MinInt32, MaxInt32, int32.
  pose proof (Z.mod_pos_bound (z + 2147483648) 4294967296). lia.
Qed.

Lemma mutexAcquire_true b done t lm lm' :
  mutexAcquire b done t lm = (true, lm') →
  grantable b lm ∧ lm' = grantedMu b lm.
Proof.
  unfold mutexAcquire, LRWMutex_GetRLock, LRWMutex_GetLock, grantable, grantedMu.
  destruct b, (done || (t <=? 0)); try discriminate.
  - destruct (isWriteLock lm); simpl; [discriminate|]. by intros [= <-].
  - destruct (isWriteLock lm); simpl; [discriminate|].
    destruct (N.eqb_spec (readers lm) 0); [|discriminate]. by intros [= <-].
Qed.

Lemma mutexAcquire_unchanged b done t lm lm' :
  mutexAcquire b done t lm = (false, lm') → lm' = lm.
Proof.
  unfold mutexAcquire, LRWMutex_GetRLock, LRWMutex_GetLock.
  destruct b, (done || (t <=? 0)); try by intros [= <-].
  - destruct (negb (isWriteLock lm)); [discriminate | by intros [= <-]].
  - destruct (negb (isWriteLock lm) && (readers lm =? 0)%N);
      [discriminate | by intros [= <-]].
Qed.

Lemma mutexRelease_granted b lm :
  grantable b lm → mutexRelease b (grantedMu b lm) = Some lm.
Proof.
  destruct lm as [wl n]. unfold grantable, grantedMu, mutexRelease,
    LRWMutex_RUnlock, LRWMutex_Unlock. simpl.
  destruct b; simpl.
  - intros ->. simpl. destruct (N.ltb_spec 0 (n + 1)); [|lia].
    do 2 f_equal. lia.
  - by intros [-> ->].
Qed.

Lemma grantedMu_held b lm : grantable b lm → heldIn b (grantedMu b lm).
Proof.
  unfold grantable, grantedMu, heldIn. destruct b; simpl; [|done].
  intros ->. split; [done | lia].
Qed.

(** ** One [lock] and one [unlock] *)

Lemma world_eta (w : World) : mkWorld (ns w) (amb w) (trace w) = w.
Proof. by destruct w. Qed.

Lemma nsmap_eta (n : NsLockMap) m :
  lockMap n = Some m → mkNsLockMap (isDistErasure n) (Some m) = n.
Proof. destruct n; simpl. by intros ->. Qed.

Lemma lock_run ctx vol p src id b t w m :
  lockMap (ns w) = Some m →
  (∀ e, m !! pathJoin vol p = Some e → 0 < ref e ≤ MaxInt32) →
  let r := pathJoin vol p in
  let a1 := interfereA (amb w) in
  let res := mutexAcquire b (ctxDone (cancelled a1) ctx) t
               (mu (default newNsLock (m !! r))) in
  lock ctx vol p src id b t w =
    Ret res.1
      (mkWorld (mkNsLockMap (isDistErasure (ns w))
                  (Some (if res.1 then <[r := acqEntry b (m !! r)]> m else m)))
               a1 (trace w ++ [EvAcquire r b t res.1])).
Proof.
  intros Hm Hok. cbv zeta.
  unfold lock, lock_enter, lock_wait, lock_leave. munfold.
  remember (pathJoin vol p) as r eqn:Hr. simpl.
  rewrite Hm. simpl. rewrite lookup_insert_eq. simpl.
  rewrite insert_insert_eq.
  destruct (mutexAcquire b _ t _) as [locked lm] eqn:Hres. simpl.
  destruct locked; simpl.
  - apply mutexAcquire_true in Hres as [_ ->]. done.
  - apply mutexAcquire_unchanged in Hres as ->.
    rewrite lookup_insert_eq. simpl. rewrite !insert_insert_eq.
    rewrite int32_succ_pred.
    destruct (m !! r) as [e|] eqn:He; simpl.
    + specialize (Hok e eq_refl). rewrite int32_id by (unfold MinInt32; lia).
      destruct (Z.ltb_spec (ref e) 0); [lia|].
      destruct (Z.eqb_spec (ref e) 0); [lia|]. simpl.
      do 3 f_equal. rewrite insert_id; [done|]. rewrite He. by destruct e.
    + simpl. do 3 f_equal. by rewrite delete_insert_eq, delete_id.
Qed.

Lemma lock_granted ctx vol p src id b t w w' :
  lock ctx vol p src id b t w = Ret true w' →
  ∃ m, lockMap (ns w) = Some m ∧
       grantable b (mu (default newNsLock (m !! pathJoin vol p))) ∧
       w' = mkWorld (mkNsLockMap (isDistErasure (ns w))
                       (Some (<[pathJoin vol p := acqEntry b (m !! pathJoin vol p)]> m)))
                    (interfereA (amb w))
                    (trace w ++ [EvAcquire (pathJoin vol p) b t true]).
Proof.
  unfold lock, lock_enter, lock_wait, lock_leave. munfold.
  remember (pathJoin vol p) as r eqn:Hr. simpl.
  destruct (lockMap (ns w)) as [m|] eqn:Hm; [|discriminate]. simpl.
  rewrite lookup_insert_eq. simpl. rewrite insert_insert_eq.
  destruct (mutexAcquire b _ t _) as [locked lm] eqn:Hres. simpl.
  destruct locked; simpl.
  - apply mutexAcquire_true in Hres as [Hg ->]. intros [= <-]. by exists m.
  - rewrite lookup_insert_eq. simpl.
    repeat match goal with
           | |- context [if ?c then _ else _] => destruct c; simpl
           end; discriminate.
Qed.

Lemma unlock_absent vol p b w :
  lockMap (ns w) ≫= (.!! pathJoin vol p) = None →
  unlock vol p b w = Ret tt w.
Proof.
  unfold unlock. munfold. simpl.
  destruct (lockMap (ns w)) as [m|]; simpl; [|done]. by intros ->.
Qed.

Lemma unlock_held vol p b w m x :
  lockMap (ns w) = Some m →
  m !! pathJoin vol p = Some (acqEntry b x) →
  (∀ e, x = Some e → 0 < ref e ≤ MaxInt32) →
  grantable b (mu (default newNsLock x)) →
  unlock vol p b w =
    Ret tt (mkWorld (mkNsLockMap (isDistErasure (ns w))
                       (Some (partial_alter (λ _, x) (pathJoin vol p) m)))
                    (amb w)
                    (trace w ++ [EvRelease (pathJoin vol p) b])).
Proof.
  intros Hm He Hx Hg. unfold unlock. munfold.
  remember (pathJoin vol p) as r eqn:Hr. simpl.
  rewrite Hm. simpl. rewrite He. unfold acqEntry at 1. simpl.
  rewrite (mutexRelease_granted _ _ Hg). simpl.
  rewrite int32_succ_pred.
  destruct x as [e|]; simpl.
  - specialize (Hx e eq_refl). rewrite int32_id by (unfold MinInt32; lia).
    destruct (Z.ltb_spec (ref e) 0); [lia|].
    destruct (Z.eqb_spec (ref e) 0); [lia|]. simpl.
    do 4 f_equal. apply map_eq. intros k.
    rewrite lookup_partial_alter, lookup_insert.
    case_decide; [by destruct e | done].
  - simpl. do 4 f_equal. apply map_eq. intros k.
    rewrite lookup_partial_alter, lookup_delete, lookup_insert.
    by case_decide.
Qed.

(** ** Grants stacked on one entry *)

Lemma stack_ref b K o k :
  (∀ e, o = Some e → 0 < ref e) →
  ref (default newNsLock o) + K ≤ MaxInt32 →
  Z.of_nat k ≤ K →
  ref (default newNsLock (stack b k o)) = ref (default newNsLock o) + Z.of_nat k.
Proof.
  intros Ho Hroom. induction k as [|k IH]; intros Hk.
  - simpl. lia.
  - simpl. unfold acqEntry. simpl. rewrite IH by lia.
    rewrite int32_id; [lia|].
    destruct o as [e|]; simpl in *.
    + specialize (Ho e eq_refl). unfold MinInt32. lia.
    + unfold MinInt32. lia.
Qed.

Lemma stack_entry_ok b K o k :
  (∀ e, o = Some e → 0 < ref e) →
  ref (default newNsLock o) + K ≤ MaxInt32 →
  Z.of_nat k ≤ K →
  ∀ e, stack b k o = Some e → 0 < ref e ≤ MaxInt32 - (K - Z.of_nat k).
Proof.
  intros Ho Hroom Hk e He.
  pose proof (stack_ref b K o k Ho Hroom Hk) as Href.
  rewrite He in Href. simpl in Href.
  destruct o as [e0|]; simpl in *.
  - specialize (Ho e0 eq_refl). lia.
  - destruct k; [discriminate|]. lia.
Qed.

Lemma cnt_nil vol r : cnt vol r [] = O.
Proof. done. Qed.

Lemma cnt_cons vol r p ps :
  cnt vol r (p :: ps) =
  if decide (pathJoin vol p = r) then S (cnt vol r ps) else cnt vol r ps.
Proof. unfold cnt. rewrite filter_cons. by case_decide. Qed.

Lemma cnt_snoc vol r p ps :
  cnt vol r (ps ++ [p]) =
  if decide (pathJoin vol p = r) then S (cnt vol r ps) else cnt vol r ps.
Proof.
  unfold cnt. rewrite filter_app, length_app, filter_cons, filter_nil.
  case_decide; simpl; lia.
Qed.

Lemma cnt_le vol r ps : (cnt vol r ps ≤ length ps)%nat.
Proof. unfold cnt. apply length_filter. Qed.

Lemma refOf_default m r : refOf m r = ref (default newNsLock (m !! r)).
Proof. unfold refOf. by destruct (m !! r). Qed.

Lemma registry_ok_pos m r e : registry_ok m → m !! r = Some e → 0 < ref e.
Proof.
  intros Hok He. destruct (Hok r) as [[Hpos _] _].
  unfold refOf in Hpos. rewrite He in Hpos. by apply Hpos.
Qed.

Lemma success_step n k :
  <[n := 1]> (replicate n 1 ++ replicate (S k) 0) = replicate (S n) 1 ++ replicate k 0.
Proof. induction n as [|n IH]; simpl; [done | by f_equal]. Qed.

(** ** The unwinding loop *)

Lemma releaseGranted_zeros li b z si w :
  releaseGranted li b si (replicate z 0) w = Ret tt w.
Proof.
  revert si. induction z as [|z IH]; intros si; [done|].
  simpl. munfold. simpl. apply IH.
Qed.

Section Unwind.
Variables (li : localLockInstance) (b : bool) (m0 : gmap string nsLock) (K : Z).
Hypothesis Hok : registry_ok m0.
Hypothesis Hroom : headroom K m0.

Lemma granted_on_entry ps m r e :
  granted_on m0 b (volume li) ps m →
  Z.of_nat (length ps) ≤ K →
  m !! r = Some e → 0 < ref e ≤ MaxInt32.
Proof.
  intros Hg Hlen He. destruct (Hg r) as [Hm _]. rewrite He in Hm. symmetry in Hm.
  pose proof (cnt_le (volume li) r ps) as Hc.
  eapply (stack_entry_ok b K (m0 !! r) (cnt (volume li) r ps)) in Hm.
  - lia.
  - intros e0 He0. by eapply registry_ok_pos.
  - rewrite <- refOf_default. apply Hroom.
  - lia.
Qed.

Lemma releaseGranted_wf rest : ∀ si z w m,
  (∀ j q, rest !! j = Some q → paths li !! (si + j)%nat = Some q) →
  lockMap (ns w) = Some m →
  granted_on m0 b (volume li) rest m →
  Z.of_nat (length rest) ≤ K →
  releaseGranted li b si (replicate (length rest) 1 ++ replicate z 0) w =
    Ret tt (mkWorld (mkNsLockMap (isDistErasure (ns w)) (Some m0)) (amb w)
              (trace w ++ releaseEvents b (volume li) rest)).
Proof.
  induction rest as [|p rest IH]; intros si z w m Hidx Hm Hg Hlen.
  - simpl. rewrite releaseGranted_zeros, app_nil_r.
    assert (m = m0) as ->.
    { apply map_eq. intros r. by destruct (Hg r) as [-> _]. }
    rewrite (nsmap_eta _ _ Hm). by rewrite world_eta.
  - simpl in Hlen. simpl. munfold. simpl.
    pose proof (Hidx O p eq_refl) as Hp. rewrite Nat.add_0_r in Hp. rewrite Hp.
    set (r := pathJoin (volume li) p).
    set (x := stack b (cnt (volume li) r rest) (m0 !! r)).
    assert (m !! r = Some (acqEntry b x)) as He.
    { destruct (Hg r) as [-> _]. rewrite cnt_cons.
      unfold r. by rewrite decide_True. }
    assert (S (cnt (volume li) r rest) = cnt (volume li) r (p :: rest)) as Hc.
    { rewrite cnt_cons. unfold r. by rewrite decide_True. }
    pose proof (cnt_le (volume li) r rest) as Hcl.
    rewrite (unlock_held _ _ _ _ m x Hm He).
    + rewrite (IH (S si) z _ (partial_alter (λ _, x) r m)); simpl.
      * by rewrite <- app_assoc.
      * intros j q Hj. rewrite <- Nat.add_succ_r. by apply Hidx.
      * done.
      * intros r'. rewrite lookup_partial_alter.
        destruct (Hg r') as [Hl Hv]. rewrite cnt_cons in Hl, Hv.
        fold r in Hl, Hv. case_decide as Heq.
        -- subst r'. split; [done|]. intros j Hj. apply Hv. lia.
        -- done.
      * lia.
    + intros e Hx.
      eapply (stack_entry_ok b K (m0 !! r) (cnt (volume li) r rest)) in Hx.
      * lia.
      * intros e0 He0. by eapply registry_ok_pos.
      * rewrite <- refOf_default. apply Hroom.
      * lia.
    + destruct (Hg r) as [_ Hv]. apply Hv. lia.
Qed.

End Unwind.

(** ** The acquiring loop on a well-formed registry *)

Section Acquire.
Variables (li : localLockInstance) (b : bool) (m0 : gmap string nsLock).
Variables (ctx : Context) (src : string) (start : Z).
Hypothesis Hok : registry_ok m0.
Hypothesis Hroom : headroom (Z.of_nat (length (paths li))) m0.

Lemma granted_on_snoc ps p m :
  granted_on m0 b (volume li) ps m →
  grantable b (mu (default newNsLock (m !! pathJoin (volume li) p))) →
  granted_on m0 b (volume li) (ps ++ [p])
    (<[pathJoin (volume li) p := acqEntry b (m !! pathJoin (volume li) p)]> m).
Proof.
  intros Hg Hfree r. destruct (Hg r) as [Hl Hv].
  rewrite cnt_snoc, lookup_insert. case_decide as Heq.
  - subst r. split; [by rewrite Hl|].
    intros j Hj. destruct (decide (j = cnt (volume li) (pathJoin (volume li) p) ps)) as [->|].
    + by rewrite <- Hl.
    + apply Hv. lia.
  - done.
Qed.

Lemma acquirePaths_wf todo : ∀ done w m,
  paths li = done ++ todo →
  lockMap (ns w) = Some m →
  granted_on m0 b (volume li) done m →
  ∃ r w',
    acquirePaths li ctx src b start (length done) todo
      (replicate (length done) 1 ++ replicate (length todo) 0) w = Ret r w' ∧
    ((r = (Some ctx, None) ∧
      ∃ tr, trace w' = trace w ++ tr ∧ Forall (λ e, isFailedAcquire e = false) tr)
     ∨
     (∃ granted p rest,
        todo = granted ++ p :: rest ∧
        r = (None, Some OperationTimedOut) ∧
        let t := Timeout (dt (interfereN (length granted) (amb w))) in
        w' = mkWorld (mkNsLockMap (isDistErasure (ns w)) (Some m0))
               (logFailureA (interfereN (S (length granted)) (amb w)))
               (trace w ++ grantEvents b (volume li) (amb w) granted
                  ++ [EvTimeout t; EvAcquire (pathJoin (volume li) p) b t false;
                      EvLogFailure]
                  ++ releaseEvents b (volume li) (done ++ granted)))).
Proof.
  induction todo as [|p todo IH]; intros done w m Hpaths Hm Hg.
  - eexists _, _. split; [reflexivity|]. left. split; [done|].
    simpl. eexists. split; [reflexivity|]. by repeat constructor.
  - assert (Z.of_nat (length done) ≤ Z.of_nat (length (paths li))) as Hlen.
    { rewrite Hpaths, length_app. lia. }
    simpl. unfold DT_Timeout at 1. munfold. simpl.
    set (t := Timeout (dt (amb w))).
    set (w0 := mkWorld (ns w) (amb w) (trace w ++ [EvTimeout t])).
    pose proof (lock_run ctx (volume li) p src (li_opsID li) b t w0 m Hm) as Hrun.
    cbv zeta in Hrun. rewrite Hrun; clear Hrun.
    2:{ intros e He. eapply granted_on_entry; eauto. }
    destruct (mutexAcquire b _ t _) as [locked lm] eqn:Hres. simpl.
    change (0 :: replicate (length todo) 0) with (replicate (S (length todo)) 0).
    destruct locked; simpl.
    + apply mutexAcquire_true in Hres as [Hfree _].
      change (0 :: replicate (length todo) 0) with (replicate (S (length todo)) 0).
      rewrite success_step.
      replace (S (length done)) with (length (done ++ [p]))
        by (rewrite length_app; simpl; lia).
      match goal with
      | |- ∃ r w', acquirePaths _ _ _ _ _ _ _ _ ?w1 = _ ∧ _ =>
          destruct (IH (done ++ [p]) w1 _ ltac:(by rewrite <- app_assoc) eq_refl
                      (granted_on_snoc done p m Hg Hfree))
            as (r & w' & Hrun & Hcase)
      end.
      exists r, w'. split; [exact Hrun|].
      destruct Hcase as [[-> (tr & Htr & Hall)] | (granted & q & rest & -> & -> & Hw)].
      * left. split; [done|]. simpl in Htr.
        exists (EvTimeout t :: EvAcquire (pathJoin (volume li) p) b t true :: tr).
        split; [by rewrite Htr, <- !app_assoc | by repeat constructor].
      * right. exists (p :: granted), q, rest. split; [done|]. split; [done|].
        simpl in Hw |- *. rewrite Hw. f_equal.
        rewrite <- !app_assoc. done.
    + eexists _, _.
      change (0 :: replicate (length todo) 0) with (replicate (S (length todo)) 0).
      rewrite (releaseGranted_wf li b m0 _ Hok Hroom done O (S (length todo)) _ m);
        simpl; [| intros j q Hj; rewrite Hpaths; by apply lookup_app_l_Some
                | done | done | done].
      split; [reflexivity|]. right. exists [], p, todo.
      split; [done|]. split; [done|]. simpl.
      f_equal. rewrite app_nil_r, <- !app_assoc. done.
Qed.

End Acquire.

(** ** Projections of the traces of the loops *)

Lemma grantEvents_grants b vol a ps :
  grants (grantEvents b vol a ps) = map (λ p, (pathJoin vol p, b)) ps.
Proof.
  revert a. induction ps as [|p ps IH]; intros a; [done|].
  unfold grants. simpl. first [exact (IH _) | f_equal; exact (IH _)].
Qed.

Lemma grantEvents_releases b vol a ps : releases (grantEvents b vol a ps) = [].
Proof.
  revert a. induction ps as [|p ps IH]; intros a; [done|].
  unfold releases. simpl. first [exact (IH _) | f_equal; exact (IH _)].
Qed.

Lemma grantEvents_logFailures b vol a ps : logFailures (grantEvents b vol a ps) = O.
Proof.
  revert a. induction ps as [|p ps IH]; intros a; [done|].
  unfold logFailures. simpl. first [exact (IH _) | f_equal; exact (IH _)].
Qed.

Lemma grantEvents_logSuccesses b vol a ps : logSuccesses (grantEvents b vol a ps) = [].
Proof.
  revert a. induction ps as [|p ps IH]; intros a; [done|].
  unfold logSuccesses. simpl. first [exact (IH _) | f_equal; exact (IH _)].
Qed.

Lemma grantEvents_acquires b vol a ps :
  length (acquireTimeouts (grantEvents b vol a ps)) = length ps.
Proof.
  revert a. induction ps as [|p ps IH]; intros a; [done|].
  unfold acquireTimeouts. simpl. first [exact (IH _) | f_equal; exact (IH _)].
Qed.

Lemma releaseEvents_releases b vol ps :
  releases (releaseEvents b vol ps) = map (λ p, (pathJoin vol p, b)) ps.
Proof.
  induction ps as [|p ps IH]; [done|].
  unfold releases, releaseEvents. simpl. first [exact IH | f_equal; exact IH].
Qed.

Lemma releaseEvents_grants b vol ps : grants (releaseEvents b vol ps) = [].
Proof.
  induction ps as [|p ps IH]; [done|].
  unfold grants, releaseEvents. simpl. first [exact IH | f_equal; exact IH].
Qed.

Lemma releaseEvents_logFailures b vol ps : logFailures (releaseEvents b vol ps) = O.
Proof.
  induction ps as [|p ps IH]; [done|].
  unfold logFailures, releaseEvents. simpl. first [exact IH | f_equal; exact IH].
Qed.

Lemma releaseEvents_acquires b vol ps : acquireTimeouts (releaseEvents b vol ps) = [].
Proof.
  induction ps as [|p ps IH]; [done|].
  unfold acquireTimeouts, releaseEvents. simpl. first [exact IH | f_equal; exact IH].
Qed.

Lemma logFailures_app l1 l2 :
  logFailures (l1 ++ l2) = (logFailures l1 + logFailures l2)%nat.
Proof. unfold logFailures. by rewrite omap_app, length_app. Qed.

Lemma acquireTimeouts_app l1 l2 :
  acquireTimeouts (l1 ++ l2) = acquireTimeouts l1 ++ acquireTimeouts l2.
Proof. apply omap_app. Qed.

Lemma releases_app l1 l2 : releases (l1 ++ l2) = releases l1 ++ releases l2.
Proof. apply omap_app. Qed.

Lemma grants_app l1 l2 : grants (l1 ++ l2) = grants l1 ++ grants l2.
Proof. apply omap_app. Qed.

Lemma logSuccesses_app l1 l2 :
  logSuccesses (l1 ++ l2) = logSuccesses l1 ++ logSuccesses l2.
Proof. apply omap_app. Qed.

Lemma failing_trace b vol a granted t r :
  let tr := grantEvents b vol a granted
            ++ [EvTimeout t; EvAcquire r b t false; EvLogFailure]
            ++ releaseEvents b vol granted in
  logFailures tr = 1%nat ∧
  length (acquireTimeouts tr) = S (length granted) ∧
  releases tr = map (λ p, (pathJoin vol p, b)) granted ∧
  grants tr = map (λ p, (pathJoin vol p, b)) granted.
Proof.
  cbv zeta.
  rewrite !logFailures_app, !acquireTimeouts_app, !releases_app, !grants_app.
  rewrite grantEvents_logFailures, releaseEvents_logFailures,
    releaseEvents_acquires, grantEvents_releases,
    releaseEvents_releases, grantEvents_grants, releaseEvents_grants.
  rewrite !length_app, grantEvents_acquires.
  change (logFailures [EvTimeout t; EvAcquire r b t false; EvLogFailure]) with 1%nat.
  change (acquireTimeouts [EvTimeout t; EvAcquire r b t false; EvLogFailure]) with [t].
  change (releases [EvTimeout t; EvAcquire r b t false; EvLogFailure])
    with (@nil (string * bool)).
  change (grants [EvTimeout t; EvAcquire r b t false; EvLogFailure])
    with (@nil (string * bool)).
  simpl. rewrite !app_nil_r. repeat split. lia.
Qed.

Lemma no_failed_acquire tr :
  Forall (λ e, isFailedAcquire e = false) tr → existsb isFailedAcquire tr = false.
Proof. induction 1 as [|e tr He _ IH]; [done|]. simpl. by rewrite He, IH. Qed.

(** ** The local instance on a well-formed registry *)

(** C1 (as amended).  A [GetLock] or [GetRLock] on a registry that
    satisfies its invariant, with room in the counts below the [int32]
    maximum for one increment per path of the instance, always returns.  If the sub-acquire for some path failed, then [LogFailure] was
    invoked once, on the controller as the others left it; the releases made
    through [unlock] are exactly the grants obtained before, in the same
    mode; the result is a [nil] context with [OperationTimedOut]; and the
    registry, every mutex included, is what it was before the call, so the
    instance holds none of its paths. *)
Theorem GetLock_timeout_unwinds (readLock : bool) (li : localLockInstance)
    (ctx : Context) (w : World) (m : gmap string nsLock) :
  lockMap (ns w) = Some m →
  registry_ok m →
  headroom (Z.of_nat (length (paths li))) m →
  ∃ r w' tr,
    (if readLock then localLockInstance_GetRLock li ctx
     else localLockInstance_GetLock li ctx) w = Ret r w' ∧
    trace w' = trace w ++ tr ∧
    (existsb isFailedAcquire tr = true →
       logFailures tr = 1%nat ∧
       amb w' = logFailureA (interfereN (length (acquireTimeouts tr)) (amb w)) ∧
       releases tr = grants tr ∧
       Forall (λ g, g.2 = readLock) (grants tr) ∧
       r = (None, Some OperationTimedOut) ∧
       ns w' = ns w).
Proof.
  intros Hm Hok Hroom.
  destruct (acquirePaths_wf li readLock m ctx (getSource 2) (clock (amb w))
              Hok Hroom (paths li) [] w m eq_refl Hm)
    as (r & w' & Hrun & Hcase).
  { intros resource. rewrite cnt_nil. split; [done | lia]. }
  assert ((if readLock then localLockInstance_GetRLock li ctx
           else localLockInstance_GetLock li ctx) w = Ret r w') as Hcall.
  { destruct readLock; exact Hrun. }
  destruct Hcase as [[-> (tr & Htr & Hall)] | (granted & p & rest & Hsplit & -> & Hw)].
  - exists (Some ctx, None), w', tr. split; [done|]. split; [done|].
    intros Hfail. rewrite (no_failed_acquire _ Hall) in Hfail. discriminate.
  - eexists _, w', _. split; [exact Hcall|]. cbv zeta in Hw. rewrite Hw.
    cbn [trace amb ns]. change ([] ++ granted) with granted.
    split; [reflexivity|]. intros _.
    destruct (failing_trace readLock (volume li) (amb w) granted
                (Timeout (dt (interfereN (length granted) (amb w))))
                (pathJoin (volume li) p)) as (HlogF & Hacq & Hrel & Hgr).
    rewrite HlogF, Hacq, Hrel, Hgr.
    repeat split.
    + apply Forall_forall. intros g Hin. apply list_elem_of_In in Hin.
      apply in_map_iff in Hin as (q & <- & _). done.
    + by apply nsmap_eta.
Qed.

(** ** The local instance on any registry: what a successful call leaves *)

Lemma heldAt_same_ns w w' b r : ns w' = ns w → heldAt w b r → heldAt w' b r.
Proof. unfold heldAt. by intros ->. Qed.

Lemma heldAt_grant_new n m a tr b r0 :
  grantable b (mu (default newNsLock (m !! r0))) →
  heldAt (mkWorld (mkNsLockMap n (Some (<[r0 := acqEntry b (m !! r0)]> m))) a tr) b r0.
Proof.
  intros Hfree. eexists _, _. split; [reflexivity|]. rewrite lookup_insert_eq.
  split; [reflexivity|]. by apply grantedMu_held.
Qed.

Lemma heldAt_grant_keep w n m a tr b r0 r :
  lockMap (ns w) = Some m →
  grantable b (mu (default newNsLock (m !! r0))) →
  heldAt w b r →
  heldAt (mkWorld (mkNsLockMap n (Some (<[r0 := acqEntry b (m !! r0)]> m))) a tr) b r.
Proof.
  intros Hm Hfree (m1 & e & Hm1 & He & Hheld).
  destruct (decide (r = r0)) as [->|Hne]; [by apply heldAt_grant_new|].
  rewrite Hm in Hm1. injection Hm1 as <-.
  eexists _, e. split; [reflexivity|]. by rewrite lookup_insert_ne.
Qed.

Section Success.
Variables (li : localLockInstance) (b : bool).
Variables (ctx : Context) (src : string) (start : Z).

Lemma unwinding_is_no_success (c : M unit) w octx w' :
  (DT_LogFailure;; c;; mret (@None Context, Some OperationTimedOut)) w
    ≠ Ret (octx, @None error) w'.
Proof. munfold. simpl. by destruct (c _). Qed.

Lemma acquirePaths_success todo : ∀ i success w octx w',
  acquirePaths li ctx src b start i todo success w = Ret (octx, None) w' →
  octx = Some ctx ∧
  (∀ r, heldAt w b r → heldAt w' b r) ∧
  (∀ p, p ∈ todo → heldAt w' b (pathJoin (volume li) p)) ∧
  let a' := interfereN (length todo) (amb w) in
  let d := Time_Sub (clock a') start in
  amb w' = logSuccessA d a' ∧
  trace w' = trace w ++ grantEvents b (volume li) (amb w) todo ++ [EvLogSuccess d].
Proof.
  induction todo as [|p todo IH]; intros i success w octx w' Hrun.
  - simpl in Hrun. munfold. simpl in Hrun. injection Hrun as <- <-.
    split; [done|]. split; [by intros r; apply heldAt_same_ns|].
    split; [by intros p Hp; apply elem_of_nil in Hp|]. done.
  - simpl in Hrun. unfold DT_Timeout at 1 in Hrun.
    unfold mbind at 1 2 3 4, M_bind, mret, M_ret, emit, getAmbient in Hrun.
    simpl in Hrun.
    set (t := Timeout (dt (amb w))) in *.
    destruct (lock ctx (volume li) p src (li_opsID li) b t _)
      as [locked w1|msg w1] eqn:Hlock; [|discriminate].
    destruct locked; simpl in Hrun.
    + apply lock_granted in Hlock as (m & Hm & Hfree & ->). simpl in Hm.
      apply IH in Hrun as (-> & Hmono & Hall & Hamb & Htr). clear IH.
      split; [done|]. split; [|split].
      * intros r Hr. apply Hmono. by eapply heldAt_grant_keep.
      * intros q Hq. apply elem_of_cons in Hq as [->|Hq]; [|by apply Hall].
        apply Hmono. by apply heldAt_grant_new.
      * simpl in Hamb, Htr |- *. split; [done|].
        rewrite Htr, <- !app_assoc. done.
    + by apply unwinding_is_no_success in Hrun.
Qed.

Lemma acquirePaths_result todo : ∀ i success w r w',
  acquirePaths li ctx src b start i todo success w = Ret r w' →
  r = (Some ctx, None) ∨ r = (None, Some OperationTimedOut).
Proof.
  induction todo as [|p todo IH]; intros i success w r w' Hrun.
  - simpl in Hrun. munfold. simpl in Hrun. injection Hrun as <- _. by left.
  - simpl in Hrun. unfold DT_Timeout at 1 in Hrun.
    unfold mbind at 1 2 3 4, M_bind, mret, M_ret, emit, getAmbient in Hrun.
    simpl in Hrun.
    destruct (lock ctx (volume li) p src (li_opsID li) b _ _)
      as [locked w1|msg w1]; [|discriminate].
    destruct locked; simpl in Hrun; [by eapply IH|].
    munfold. simpl in Hrun.
    destruct (releaseGranted li b 0 success _); [|discriminate].
    injection Hrun as <- _. by right.
Qed.

End Success.

(** C3.  A [GetLock] or [GetRLock] that returns a [nil] error leaves every
    path of the instance with an entry whose mutex is held in the requested
    mode, and it invoked [LogSuccess] exactly once, with the time between the
    [UTCNow()] at the start of the call and the one after the last grant. *)
Theorem GetLock_success_grants_all (readLock : bool) (li : localLockInstance)
    (ctx : Context) (w w' : World) (octx : option Context) :
  (if readLock then localLockInstance_GetRLock li ctx
   else localLockInstance_GetLock li ctx) w = Ret (octx, None) w' →
  (∀ p, p ∈ paths li → heldAt w' readLock (pathJoin (volume li) p)) ∧
  ∃ tr,
    trace w' = trace w ++ tr ∧
    logSuccesses tr = [Time_Sub (clock (amb w')) (clock (amb w))] ∧
    logFailures tr = O ∧
    dt (amb w') =
      LogSuccess (Time_Sub (clock (amb w')) (clock (amb w)))
                 (dt (interfereN (length (paths li)) (amb w))).
Proof.
  intros Hcall.
  assert (acquirePaths li ctx (getSource 2) readLock (clock (amb w)) 0 (paths li)
            (replicate (length (paths li)) 0) w = Ret (octx, None) w') as Hrun.
  { destruct readLock; exact Hcall. }
  apply acquirePaths_success in Hrun as (_ & _ & Hall & Hamb & Htr).
  cbv zeta in Hamb, Htr. split; [done|].
  eexists. split; [exact Htr|].
  rewrite Hamb. cbn [clock dt logSuccessA].
  rewrite logSuccesses_app, logFailures_app, grantEvents_logSuccesses,
    grantEvents_logFailures.
  done.
Qed.

(** C9.  Whenever a [GetLock] or [GetRLock] of the local instance returns,
    it returns either the caller's own context with a [nil] error, or a [nil]
    context with [OperationTimedOut]. *)
Theorem GetLock_returned_context (readLock : bool) (li : localLockInstance)
    (ctx : Context) (w w' : World) (octx : option Context) (oerr : option error) :
  (if readLock then localLockInstance_GetRLock li ctx
   else localLockInstance_GetLock li ctx) w = Ret (octx, oerr) w' →
  (oerr = None ∧ octx = Some ctx) ∨
  (oerr = Some OperationTimedOut ∧ octx = None).
Proof.
  intros Hcall.
  assert (acquirePaths li ctx (getSource 2) readLock (clock (amb w)) 0 (paths li)
            (replicate (length (paths li)) 0) w = Ret (octx, oerr) w') as Hrun.
  { destruct readLock; exact Hcall. }
  apply acquirePaths_result in Hrun as [Hr|Hr]; injection Hr as -> ->; auto.
Qed.

(** ** The timeouts handed to the sub-acquires *)

Lemma silent_app tr1 tr2 : silent tr1 → silent tr2 → silent (tr1 ++ tr2).
Proof.
  unfold silent, timeoutReads, acquireTimeouts. rewrite !omap_app.
  by intros [-> ->] [-> ->].
Qed.

Lemma unlock_silent vol p b w :
  ∃ tr, trace (worldOf (unlock vol p b w)) = trace w ++ tr ∧ silent tr.
Proof.
  unfold unlock. munfold. simpl.
  destruct (lockMap (ns w)) as [m|]; simpl;
    [|by exists []; rewrite app_nil_r].
  destruct (m !! pathJoin vol p) as [e|]; simpl;
    [|by exists []; rewrite app_nil_r].
  exists [EvRelease (pathJoin vol p) b]. split; [|done].
  destruct (mutexRelease b (mu e)); simpl; [|done].
  destruct (int32 (ref e - 1) <? 0); simpl; [done|].
  by destruct (int32 (ref e - 1) =? 0).
Qed.

Lemma releaseGranted_silent li b success : ∀ si w,
  ∃ tr, trace (worldOf (releaseGranted li b si success w)) = trace w ++ tr ∧ silent tr.
Proof.
  induction success as [|sint success IH]; intros si w.
  - exists []. by rewrite app_nil_r.
  - simpl. munfold.
    assert (∃ tr, trace (worldOf ((if sint =? 1
                then match paths li !! si with
                     | Some p => unlock (volume li) p b
                     | None => λ w0, Panic "index out of range" w0
                     end
                else λ w0, Ret tt w0) w)) = trace w ++ tr ∧ silent tr)
      as (tr1 & Htr1 & Hs1).
    { destruct (sint =? 1); [|by exists []; rewrite app_nil_r].
      destruct (paths li !! si); [apply unlock_silent|].
      by exists []; rewrite app_nil_r. }
    match goal with
    | |- context [worldOf (match ?c with Ret _ _ => _ | Panic _ _ => _ end)] =>
        destruct c as [[] w1|msg w1]
    end; simpl in *.
    + destruct (IH (S si) w1) as (tr2 & Htr2 & Hs2).
      exists (tr1 ++ tr2). rewrite Htr2, Htr1, app_assoc.
      split; [done | by apply silent_app].
    + by exists tr1.
Qed.

Lemma lock_shape ctx vol p src id b t w :
  let res := lock ctx vol p src id b t w in
  (trace (worldOf res) = trace w ∧ ∃ msg w', res = Panic msg w') ∨
  (∃ l, trace (worldOf res) = trace w ++ [EvAcquire (pathJoin vol p) b t l] ∧
        amb (worldOf res) = interfereA (amb w) ∧
        (res = Ret l (worldOf res) ∨ (l = false ∧ ∃ msg, res = Panic msg (worldOf res)))).
Proof.
  cbv zeta. unfold lock, lock_enter, lock_wait, lock_leave. munfold.
  remember (pathJoin vol p) as r eqn:Hr. simpl.
  destruct (lockMap (ns w)) as [m|] eqn:Hm; simpl; [|left; eauto].
  rewrite lookup_insert_eq. simpl. rewrite insert_insert_eq.
  destruct (mutexAcquire b _ t _) as [locked lm] eqn:Hres. simpl.
  right. exists locked. destruct locked; simpl; [eauto|].
  rewrite lookup_insert_eq. simpl.
  destruct (int32 (int32 _ - 1) <? 0); simpl; [eauto 10|].
  destruct (int32 (int32 _ - 1) =? 0); simpl; eauto.
Qed.

Lemma acquirePaths_fresh li ctx src b start todo : ∀ i success w,
  ∃ tr, trace (worldOf (acquirePaths li ctx src b start i todo success w))
          = trace w ++ tr ∧
        fresh_timeouts (amb w) tr.
Proof.
  induction todo as [|p todo IH]; intros i success w.
  - simpl. munfold. simpl. eexists. split; [reflexivity|]. by apply fresh_tail.
  - simpl. unfold DT_Timeout at 1.
    unfold mbind at 1 2 3 4, M_bind, mret, M_ret, emit, getAmbient. simpl.
    set (t := Timeout (dt (amb w))).
    set (w0 := mkWorld (ns w) (amb w) (trace w ++ [EvTimeout t])).
    destruct (lock_shape ctx (volume li) p src (li_opsID li) b t w0)
      as [[Htr (msg & w1 & Hres)] | (l & Htr & Hamb & Hres)]; cbv zeta in *.
    + rewrite Hres in *. simpl in *. exists [EvTimeout t].
      split; [done | apply fresh_read].
    + destruct Hres as [Hres | [-> (msg & Hres)]]; rewrite Hres in *; simpl in *.
      * set (w1 := worldOf (lock ctx (volume li) p src (li_opsID li) b t w0)) in *.
        destruct l; simpl.
        -- destruct (IH (S i) (<[i:=1]> success) w1) as (tr & Htr' & Hfresh).
           exists (EvTimeout t :: EvAcquire (pathJoin (volume li) p) b t true :: tr).
           rewrite Htr', Htr, <- !app_assoc. split; [done|].
           apply fresh_step. by rewrite <- Hamb.
        -- munfold. simpl.
           destruct (releaseGranted_silent li b success 0
                       (mkWorld (ns w1) (logFailureA (amb w1))
                          (trace w1 ++ [EvLogFailure]))) as (tr & Htr' & Hs).
           exists (EvTimeout t :: EvAcquire (pathJoin (volume li) p) b t false
                   :: EvLogFailure :: tr).
           split.
           ++ destruct (releaseGranted li b 0 success _); simpl in *;
                rewrite Htr', Htr, <- !app_assoc; done.
           ++ apply fresh_step, fresh_tail; apply Hs.
      * exists [EvTimeout t; EvAcquire (pathJoin (volume li) p) b t false].
        rewrite Htr, <- !app_assoc. split; [done|].
        by apply fresh_step, fresh_tail.
Qed.

Lemma quiet_interfereA a : quiet a → dt (interfereA a) = dt a ∧ quiet (interfereA a).
Proof.
  unfold quiet, interfereA, nextStep. intros Hq.
  destruct (env a) as [|s steps]; simpl; [done|].
  apply Forall_cons in Hq as [-> Hq]. done.
Qed.

Lemma fresh_timeouts_quiet a tr :
  fresh_timeouts a tr → quiet a →
  Forall (λ t, t = Timeout (dt a)) (acquireTimeouts tr).
Proof.
  induction 1 as [a tr [_ Hacq] | a | a r b l tr _ IH]; intros Hq.
  - rewrite Hacq. constructor.
  - constructor.
  - destruct (quiet_interfereA a Hq) as [Hdt Hq'].
    constructor; [done|]. rewrite <- Hdt. by apply IH.
Qed.

Lemma fresh_timeouts_reads a tr :
  fresh_timeouts a tr →
  timeoutReads tr =
    map (λ j, Timeout (dt (interfereN j a))) (seq 0 (length (timeoutReads tr))) ∧
  acquireTimeouts tr `prefix_of` timeoutReads tr.
Proof.
  induction 1 as [a tr [Hrd Hacq] | a | a r b l tr _ [IHr IHp]].
  - rewrite Hrd, Hacq. done.
  - split; [done | by exists [Timeout (dt a)]].
  - change (timeoutReads (EvTimeout (Timeout (dt a))
                          :: EvAcquire r b (Timeout (dt a)) l :: tr))
      with (Timeout (dt a) :: timeoutReads tr).
    change (acquireTimeouts (EvTimeout (Timeout (dt a))
                             :: EvAcquire r b (Timeout (dt a)) l :: tr))
      with (Timeout (dt a) :: acquireTimeouts tr).
    split; [|by apply prefix_cons].
    simpl. f_equal. rewrite <- seq_shift, map_map. exact IHr.
Qed.

(** C7 (as amended).  In every [GetLock] or [GetRLock] of the local
    instance, whether it returns or panics, the timeout is read from
    [DynamicTimeout.Timeout()] once for each sub-acquire, right before it,
    and that sub-acquire is handed the value just read; the [j]-th read sees
    the controller as the other goroutines left it during the [j] earlier
    sub-acquires.  The values coincide, and equal the one at the start of the
    call, when nobody else logs to the controller meanwhile. *)
Theorem GetLock_reads_timeout_per_path (readLock : bool) (li : localLockInstance)
    (ctx : Context) (w : World) :
  ∃ tr,
    trace (worldOf ((if readLock then localLockInstance_GetRLock li ctx
                     else localLockInstance_GetLock li ctx) w)) = trace w ++ tr ∧
    fresh_timeouts (amb w) tr ∧
    acquireTimeouts tr `prefix_of` timeoutReads tr ∧
    timeoutReads tr =
      map (λ j, Timeout (dt (interfereN j (amb w))))
          (seq 0 (length (timeoutReads tr))) ∧
    (quiet (amb w) →
     Forall (λ t, t = Timeout (dt (amb w))) (acquireTimeouts tr)).
Proof.
  destruct (acquirePaths_fresh li ctx (getSource 2) readLock (clock (amb w))
              (paths li) 0 (replicate (length (paths li)) 0) w)
    as (tr & Htr & Hfresh).
  exists tr. split; [by destruct readLock|]. split; [done|].
  destruct (fresh_timeouts_reads _ _ Hfresh) as [Hreads Hpre].
  split; [done|]. split; [done|]. by apply fresh_timeouts_quiet.
Qed.

(** ** The registry invariant *)

Lemma registry_ok_insert m r e :
  registry_ok m → 0 < ref e ≤ MaxInt32 → registry_ok (<[r := e]> m).
Proof.
  intros Hok He r'. unfold refOf. rewrite lookup_insert.
  case_decide; [|apply Hok]. split; [|lia]. split; [lia | eauto].
Qed.

Lemma registry_ok_delete m r : registry_ok m → registry_ok (delete r m).
Proof.
  intros Hok r'. unfold refOf. rewrite lookup_delete.
  case_decide; [|apply Hok]. unfold MaxInt32. split; [|lia].
  split; [by intros [? ?] | lia].
Qed.

Lemma registry_ok_entry m r e :
  registry_ok m → m !! r = Some e → 0 < ref e ≤ MaxInt32.
Proof.
  intros Hok He. destruct (Hok r) as [[Hpos _] Hmax].
  unfold refOf in *. rewrite He in *. split; [by apply Hpos | done].
Qed.

Lemma not_negativeRefPanic_Ret {A} (a : A) w : ¬ negativeRefPanic (Ret a w).
Proof. by intros [? ?]. Qed.

Lemma leave_ok (m : gmap string nsLock) r e lm n a tr :
  registry_ok m → m !! r = Some e →
  ok_after
    (((if int32 (ref e - 1) <? 0
       then CriticalIf "resource reference count was lower than 0"
       else mret tt);;
      if int32 (ref e - 1) =? 0
      then putMap (delete r (<[r := mkNsLock (int32 (ref e - 1)) lm]> m))
      else mret tt)
       (mkWorld (mkNsLockMap n (Some (<[r := mkNsLock (int32 (ref e - 1)) lm]> m)))
                a tr)).
Proof.
  intros Hok He. pose proof (registry_ok_entry m r e Hok He) as Hr.
  rewrite int32_id by (unfold MinInt32; lia). munfold.
  destruct (Z.ltb_spec (ref e - 1) 0); [lia|].
  destruct (Z.eqb_spec (ref e - 1) 0); simpl.
  - split; [|apply not_negativeRefPanic_Ret].
    eexists. split; [reflexivity|].
    rewrite delete_insert_eq. by apply registry_ok_delete.
  - split; [|apply not_negativeRefPanic_Ret].
    eexists. split; [reflexivity|]. apply registry_ok_insert; [done|]. simpl. lia.
Qed.

(** C2 (as amended).  From a registry that satisfies the invariant (an
    entry exists exactly when its count is positive, counts are [int32]
    values), each critical section of [unlock] and of [lock], the wait
    between them and the whole of [lock] end in a registry that satisfies it
    again, and none ends in the fatal error of a negative count, provided the
    count that [lock] increments is below [MaxInt32].  So the states others
    can see between critical sections never show a count of zero or below.
    And on any registry, an [unlock] that returns leaves the count of its
    resource non-negative: a negative one is the fatal error instead. *)
Theorem registry_invariant_preserved (w : World) (m : gmap string nsLock) :
  lockMap (ns w) = Some m →
  registry_ok m →
  (∀ r, refOf m r < MaxInt32 → ok_after (lock_enter r w)) ∧
  (∀ r ctx id src b t, ok_after (lock_wait r ctx id src b t w)) ∧
  (∀ r, ok_after (lock_leave r w)) ∧
  (∀ vol p b, ok_after (unlock vol p b w)) ∧
  (∀ ctx vol p src id b t,
     refOf m (pathJoin vol p) < MaxInt32 →
     ∃ locked w', lock ctx vol p src id b t w = Ret locked w' ∧
                  ok_after (Ret locked w')) ∧
  (∀ w0 vol p b w' m',
     unlock vol p b w0 = Ret tt w' → lockMap (ns w') = Some m' →
     0 ≤ refOf m' (pathJoin vol p)).
Proof.
  intros Hm Hok.
  assert (∀ r, refOf m r < MaxInt32 →
               0 < int32 (ref (default newNsLock (m !! r)) + 1) ≤ MaxInt32) as Hinc.
  { intros r Hr. rewrite <- refOf_default. destruct (Hok r) as [[Hpos _] _].
    assert (0 ≤ refOf m r).
    { unfold refOf in *. destruct (m !! r); [|lia].
      assert (0 < ref n) by (apply Hpos; eauto). lia. }
    rewrite int32_id; unfold MinInt32; lia. }
  refine (conj _ (conj _ (conj _ (conj _ (conj _ _))))).
  - intros r Hr. unfold lock_enter. munfold. simpl. rewrite Hm. simpl.
    split; [|apply not_negativeRefPanic_Ret].
    eexists. split; [reflexivity|]. by apply registry_ok_insert, Hinc.
  - intros r ctx id src b t. unfold lock_wait. munfold. simpl. rewrite Hm.
    destruct (m !! r) as [e|] eqn:He; simpl.
    + split; [|apply not_negativeRefPanic_Ret].
      eexists. split; [reflexivity|]. apply registry_ok_insert; [done|].
      simpl. by eapply registry_ok_entry.
    + split; [by exists m | by intros [? ?]].
  - intros r. unfold lock_leave. unfold mbind at 1, M_bind, getMap. rewrite Hm.
    destruct (m !! r) as [e|] eqn:He.
    + unfold mbind at 1, M_bind, putMap. by apply (leave_ok m r e (mu e)).
    + split; [by exists m | by intros [? ?]].
  - intros vol p b. unfold unlock. unfold mbind at 1, M_bind, getMap. rewrite Hm.
    destruct (m !! pathJoin vol p) as [e|] eqn:He.
    + unfold mbind at 1, M_bind, emit.
      destruct (mutexRelease b (mu e)) as [lm|].
      * unfold mbind at 1, M_bind, putMap. by apply (leave_ok m _ e lm).
      * split; [by exists m | by intros [? ?]].
    + split; [by exists m | apply not_negativeRefPanic_Ret].
  - intros ctx vol p src id b t Hr. eexists _, _.
    rewrite (lock_run ctx vol p src id b t w m Hm);
      [|by intros e He; eapply registry_ok_entry].
    split; [reflexivity|]. split; [|apply not_negativeRefPanic_Ret].
    simpl. eexists. split; [reflexivity|].
    destruct (mutexAcquire b _ t _).1; [|done].
    apply registry_ok_insert; [done|]. unfold acqEntry. simpl. by apply Hinc.
  - intros w0 vol p b w' m'. unfold unlock. munfold. simpl.
    destruct (lockMap (ns w0)) as [m1|] eqn:Hm1; simpl.
    2:{ intros [= <-]. rewrite Hm1. discriminate. }
    destruct (m1 !! pathJoin vol p) as [e|] eqn:He; simpl.
    2:{ intros [= <-]. rewrite Hm1. intros [= <-]. unfold refOf. by rewrite He. }
    destruct (mutexRelease b (mu e)) as [lm|]; simpl; [|discriminate].
    destruct (Z.ltb_spec (int32 (ref e - 1)) 0); simpl; [discriminate|].
    destruct (Z.eqb_spec (int32 (ref e - 1)) 0); simpl;
      intros [= <-]; simpl; intros [= <-]; unfold refOf.
    + by rewrite lookup_delete_eq.
    + by rewrite lookup_insert_eq.
Qed.

(** C4.  On a registry that satisfies its invariant, a [lock] that is
    granted followed by the [unlock] in the same mode returns, and leaves the
    registry map as it was before the [lock]: the same keys, the same count
    under every key, and in fact the same entries. *)
Theorem lock_then_unlock_restores (ctx : Context) (vol p src id : string)
    (b : bool) (t : Z) (w w1 : World) (m : gmap string nsLock) :
  lockMap (ns w) = Some m →
  registry_ok m →
  lock ctx vol p src id b t w = Ret true w1 →
  ∃ w2 m2,
    unlock vol p b w1 = Ret tt w2 ∧
    lockMap (ns w2) = Some m2 ∧
    dom m2 = dom m ∧
    (∀ k, refOf m2 k = refOf m k) ∧
    m2 = m.
Proof.
  intros Hm Hok Hlock.
  apply lock_granted in Hlock as (m' & Hm' & Hfree & ->).
  rewrite Hm in Hm'. injection Hm' as <-.
  eexists _, m.
  erewrite (unlock_held vol p b _ _ (m !! pathJoin vol p)).
  - assert (partial_alter (λ _, m !! pathJoin vol p) (pathJoin vol p)
              (<[pathJoin vol p := acqEntry b (m !! pathJoin vol p)]> m) = m) as ->.
    { apply map_eq. intros k. rewrite lookup_partial_alter, lookup_insert.
      by case_decide; subst. }
    done.
  - reflexivity.
  - by rewrite lookup_insert_eq.
  - intros e He. by eapply registry_ok_entry.
  - done.
Qed.

(** C8.  An [unlock] of a resource that has no entry returns at once: the
    world it leaves is the one it found, so the map is unchanged, no
    [Unlock] or [RUnlock] of a mutex is recorded and nothing panics. *)
Theorem unlock_absent_returns (vol p : string) (b : bool) (w : World) :
  lockMap (ns w) ≫= (.!! pathJoin vol p) = None →
  unlock vol p b w = Ret tt w ∧
  releases (trace (worldOf (unlock vol p b w))) = releases (trace w).
Proof. intros Habs. by rewrite (unlock_absent vol p b w Habs). Qed.

(** ** The distributed instance *)

Lemma dist_GetLock_run di ctx w :
  let a1 := interfereA (amb w) in
  let t := Timeout (dt (amb w)) in
  let c := CtxWithCancel ctx in
  let locked := negb (ctxDone (cancelled a1) c) && (0 <? t) && quorum (nextStep (amb w)) in
  let ev := EvDistAcquire (Names (rwMutex di)) c false t locked in
  distLockInstance_GetLock di ctx w =
    if locked
    then Ret (Some c, None)
           (mkWorld (ns w) (logSuccessA (Time_Sub (clock a1) (clock (amb w))) a1)
              (trace w ++ [EvTimeout t; ev;
                           EvLogSuccess (Time_Sub (clock a1) (clock (amb w)))]))
    else Ret (Some ctx, Some OperationTimedOut)
           (mkWorld (ns w) (logFailureA a1)
              (trace w ++ [EvTimeout t; ev; EvLogFailure])).
Proof.
  cbv zeta. unfold distLockInstance_GetLock, DRWMutex_GetLock, DRWMutex_acquire.
  munfold. simpl.
  destruct (negb _ && _ && _); simpl; by rewrite <- !app_assoc.
Qed.

Lemma dist_GetRLock_run di ctx w :
  let a1 := interfereA (amb w) in
  let t := Timeout (dt (amb w)) in
  let locked := negb (ctxDone (cancelled a1) ctx) && (0 <? t) && quorum (nextStep (amb w)) in
  let ev := EvDistAcquire (Names (rwMutex di)) ctx true t locked in
  distLockInstance_GetRLock di ctx w =
    if locked
    then Ret (Some (CtxWithCancel ctx), None)
           (mkWorld (ns w) (logSuccessA (Time_Sub (clock a1) (clock (amb w))) a1)
              (trace w ++ [EvTimeout t; ev;
                           EvLogSuccess (Time_Sub (clock a1) (clock (amb w)))]))
    else Ret (Some ctx, Some OperationTimedOut)
           (mkWorld (ns w) (logFailureA a1)
              (trace w ++ [EvTimeout t; ev; EvLogFailure])).
Proof.
  cbv zeta. unfold distLockInstance_GetRLock, DRWMutex_GetRLock, DRWMutex_acquire.
  munfold. simpl.
  destruct (negb _ && _ && _); simpl; by rewrite <- !app_assoc.
Qed.

(** ** [sort.Strings] *)

Lemma insertString_HdRel x y l :
  string_le y x → HdRel string_le y l → HdRel string_le y (insertString x l).
Proof.
  intros Hyx Hhd. destruct l as [|z l]; simpl; [by constructor|].
  destruct (String.leb x z); [by constructor|].
  inversion Hhd; subst. by constructor.
Qed.

Lemma insertString_sorted x l :
  Sorted string_le l → Sorted string_le (insertString x l).
Proof.
  induction 1 as [|y l Hs IH Hhd]; simpl; [by repeat constructor|].
  destruct (String.leb x y) eqn:Hxy.
  - constructor; [by constructor | by constructor].
  - constructor; [done|]. apply insertString_HdRel; [|done].
    destruct (String.leb_total x y) as [Hle|Hle]; [congruence | done].
Qed.

Lemma insertString_perm x l : insertString x l ≡ₚ x :: l.
Proof.
  induction l as [|y l IH]; simpl; [done|].
  destruct (String.leb x y); [done|]. rewrite IH. apply Permutation_swap.
Qed.

Lemma sort_Strings_sorted l : Sorted string_le (sort_Strings l).
Proof.
  induction l as [|x l IH]; simpl; [constructor | by apply insertString_sorted].
Qed.

Lemma sort_Strings_perm l : sort_Strings l ≡ₚ l.
Proof.
  induction l as [|x l IH]; simpl; [done|].
  by rewrite insertString_perm, IH.
Qed.

(** C10.  The registry made for the distributed backend has a [nil] map.
    The instance it returns is a [distLockInstance] over one [DRWMutex] made
    for all the joined names, and in any world each of its four operations
    leaves the registry as it is (so the map stays [nil]); an acquire is one
    call of that mutex on all the names, with no acquire or release of a
    registry entry. *)
Theorem dist_instance_leaves_registry (opsID vol : string) (ps : list string) :
  lockMap (NewNSLock true) = None ∧
  ∃ di,
    NsLockMap_NewNSLock (NewNSLock true) opsID vol ps = DistLocker di ∧
    rwMutex di = NewDRWMutex (pathsJoinPrefix vol ps) ∧
    Names (rwMutex di) ≡ₚ pathsJoinPrefix vol ps ∧
    ∀ (ctx : Context) (w : World),
      let l := DistLocker di in
      ns (worldOf (RWLocker_GetLock l ctx w)) = ns w ∧
      ns (worldOf (RWLocker_GetRLock l ctx w)) = ns w ∧
      ns (worldOf (RWLocker_Unlock l w)) = ns w ∧
      ns (worldOf (RWLocker_RUnlock l w)) = ns w ∧
      (∃ tr, trace (worldOf (RWLocker_GetLock l ctx w)) = trace w ++ tr ∧
             fst <$> distAcquires tr = [(Names (rwMutex di), CtxWithCancel ctx)] ∧
             grants tr = [] ∧ acquireTimeouts tr = [] ∧ releases tr = []) ∧
      (∃ tr, trace (worldOf (RWLocker_GetRLock l ctx w)) = trace w ++ tr ∧
             fst <$> distAcquires tr = [(Names (rwMutex di), ctx)] ∧
             grants tr = [] ∧ acquireTimeouts tr = [] ∧ releases tr = []).
Proof.
  split; [done|]. eexists. split; [reflexivity|]. split; [done|].
  split; [apply sort_Strings_perm|].
  intros ctx w. cbv zeta. simpl.
  rewrite dist_GetLock_run, dist_GetRLock_run. cbv zeta. simpl.
  repeat split.
  - by destruct (negb _ && _ && _).
  - by destruct (negb _ && _ && _).
  - destruct (negb _ && _ && _); eexists; (split; [reflexivity|done]).
  - destruct (negb _ && _ && _); eexists; (split; [reflexivity|done]).
Qed.

(** C5.  The instance that [NsLockMap.NewNSLock] returns holds its names
    in ascending bytewise order from the moment it is made, in both
    backends.  The local instance holds the caller's paths as
    [sort.Strings] leaves them (line 204).  The distributed instance holds
    the names, each path joined to the volume, that were handed to
    [dsync.NewDRWMutex] in the caller's order (lines 199-201), as that
    constructor leaves them.  No name is lost or added. *)
Theorem NewNSLock_sorts_paths (n : NsLockMap) (opsID vol : string)
    (ps : list string) :
  paths_sorted (NsLockMap_NewNSLock n opsID vol ps) ∧
  (isDistErasure n = false →
   ∃ li, NsLockMap_NewNSLock n opsID vol ps = LocalLocker li ∧
         volume li = vol ∧
         paths li ≡ₚ ps) ∧
  (isDistErasure n = true →
   ∃ di, NsLockMap_NewNSLock n opsID vol ps = DistLocker di ∧
         rwMutex di = NewDRWMutex (pathsJoinPrefix vol ps) ∧
         Names (rwMutex di) ≡ₚ pathsJoinPrefix vol ps).
Proof.
  unfold NsLockMap_NewNSLock, paths_sorted. split; [|split; intros ->].
  - destruct (isDistErasure n); simpl; apply sort_Strings_sorted.
  - eexists. split; [reflexivity|]. split; [done|]. apply sort_Strings_perm.
  - eexists. split; [reflexivity|]. split; [done|]. apply sort_Strings_perm.
Qed.

Lemma registry_ok_singleton r e :
  0 < ref e ≤ MaxInt32 → registry_ok ({[ r := e ]} : gmap string nsLock).
Proof.
  intros He r'. unfold refOf. rewrite lookup_singleton.
  case_decide; simpl; unfold MaxInt32 in *.
  - split; [|lia]. split; [lia | eauto].
  - split; [|lia]. split; [by intros [? ?] | lia].
Qed.

Lemma registry_ok_empty : registry_ok (∅ : gmap string nsLock).
Proof.
  intros r. unfold refOf. rewrite lookup_empty. unfold MaxInt32.
  split; [|lia]. split; [by intros [? ?] | lia].
Qed.

Lemma headroom_singleton k r e :
  0 ≤ ref e → ref e + k ≤ MaxInt32 → k ≤ MaxInt32 →
  headroom k ({[ r := e ]} : gmap string nsLock).
Proof.
  intros He Hk Hk' r'. unfold refOf. rewrite lookup_singleton.
  case_decide; simpl; lia.
Qed.

End Properties.

(** * The properties on concrete runs *)

(** Scenario 3 of the specification, multi-resource unwind, with the held
    resource second: the acquire of [b/a] is granted, the one of [b/z] times
    out, [b/a] is released again and the registry is as before. *)
Example multi_resource_unwind :
  localLockInstance_GetLock instAZ requestCtx (world0 heldZ []) =
    Ret (None, Some OperationTimedOut)
      (mkWorld (mkNsLockMap false (Some heldZ))
         (logFailureA (ambient0 []))
         [EvTimeout (60 * second); EvAcquire "b/a" false (60 * second) true;
          EvTimeout (60 * second); EvAcquire "b/z" false (60 * second) false;
          EvLogFailure; EvRelease "b/a" false]).
Proof. vm_compute. reflexivity. Qed.

(** C2, the claim as stated, fails at the end of the [int32] range.  With
    [MaxInt32] holders of the read lock on [b/a] the registry satisfies the
    invariant; one more [lock] in read mode is granted and returns, its
    [ref++] wraps, and the entry stays in the map with a negative count that
    no fatal error reports. *)
Lemma lock_wraps_ref_at_MaxInt32 :
  let w := world0 fullA [] in
  let res := lock requestCtx "b" "a" (getSource 2) "op-1" true second w in
  registry_ok fullA ∧
  (∃ w', res = Ret true w') ∧
  (∃ m', lockMap (ns (worldOf res)) = Some m' ∧
         is_Some (m' !! "b/a") ∧ refOf m' "b/a" = MinInt32 ∧
         ¬ registry_ok m').
Proof.
  cbv zeta. split; [|split].
  - apply registry_ok_singleton. simpl. unfold MaxInt32. lia.
  - eexists. vm_compute. reflexivity.
  - set (m' := ({[ "b/a" := mkNsLock MinInt32 (mkLRWMutex false 2147483648) ]}
                  : gmap string nsLock)).
    assert (m' !! "b/a" = Some (mkNsLock MinInt32 (mkLRWMutex false 2147483648)))
      as Hentry by apply lookup_singleton_eq.
    assert (refOf m' "b/a" = MinInt32) as Href by (unfold refOf; by rewrite Hentry).
    exists m'. split; [vm_compute; reflexivity|].
    split; [by rewrite Hentry|]. split; [exact Href|].
    intros Hok. destruct (Hok "b/a") as [[Hpos _] _].
    rewrite Href, Hentry in Hpos. unfold MinInt32 in Hpos.
    assert (0 < -2147483648) by (apply Hpos; eauto). lia.
Qed.

(** C1, the claim as stated, fails at the end of the [int32] range.  The
    registry satisfies the invariant: [b/a] is read-locked by [MaxInt32]
    holders and [b/z] is write-locked.  [GetRLock] on the paths [a], [a], [z]
    is granted [b/a] twice, the count wrapping below zero with no check
    after the increments, and is refused [b/z].  [LogFailure] runs, but the
    first [unlock] of the unwinding finds the count negative: the call ends
    in the fatal error instead of returning [OperationTimedOut], the second
    grant is never released, and the instance keeps a read lock on [b/a]. *)
Lemma GetRLock_unwind_fatal_at_MaxInt32 :
  let w := world0 fullAheldZ [] in
  let res := localLockInstance_GetRLock instAAZ requestCtx w in
  registry_ok fullAheldZ ∧
  existsb isFailedAcquire (trace (worldOf res)) = true ∧
  logFailures (trace (worldOf res)) = 1%nat ∧
  negativeRefPanic res ∧
  (∀ w', res ≠ Ret (None, Some OperationTimedOut) w') ∧
  grants (trace (worldOf res)) = [("b/a", true); ("b/a", true)] ∧
  releases (trace (worldOf res)) = [("b/a", true)] ∧
  look "b/a" w = Some (mkNsLock MaxInt32 (mkLRWMutex false 2147483647)) ∧
  look "b/a" (worldOf res) = Some (mkNsLock MinInt32 (mkLRWMutex false 2147483648)) ∧
  ns (worldOf res) ≠ ns w.
Proof.
  cbv zeta.
  assert (localLockInstance_GetRLock instAAZ requestCtx (world0 fullAheldZ [])
          = Panic "resource reference count was lower than 0"
              (worldOf (localLockInstance_GetRLock instAAZ requestCtx
                          (world0 fullAheldZ [])))) as Hrun.
  { vm_compute. reflexivity. }
  split.
  { apply registry_ok_insert; [|simpl; unfold MaxInt32; lia].
    apply registry_ok_singleton. simpl. unfold MaxInt32. lia. }
  split; [vm_compute; reflexivity|]. split; [vm_compute; reflexivity|].
  split; [eexists; exact Hrun|].
  split; [intros w'; rewrite Hrun; discriminate|].
  split; [vm_compute; reflexivity|]. split; [vm_compute; reflexivity|].
  split; [vm_compute; reflexivity|]. split; [vm_compute; reflexivity|].
  intros Heq.
  assert (look "b/a" (worldOf (localLockInstance_GetRLock instAAZ requestCtx
                                 (world0 fullAheldZ [])))
          = look "b/a" (world0 fullAheldZ [])) as Hsame.
  { unfold look. by rewrite Heq. }
  revert Hsame. vm_compute. discriminate.
Qed.

Lemma GetLock_timeout_unwinds_witness :
  lockMap (ns (world0 heldZ [])) = Some heldZ ∧
  registry_ok heldZ ∧
  headroom (Z.of_nat (length (paths instAZ))) heldZ ∧
  ∃ r w' tr,
    localLockInstance_GetLock instAZ requestCtx (world0 heldZ []) = Ret r w' ∧
    trace w' = trace (world0 heldZ []) ++ tr ∧
    (existsb isFailedAcquire tr = true →
       logFailures tr = 1%nat ∧
       amb w' = logFailureA (interfereN (length (acquireTimeouts tr))
                               (amb (world0 heldZ []))) ∧
       releases tr = grants tr ∧
       Forall (λ g, g.2 = false) (grants tr) ∧
       r = (None, Some OperationTimedOut) ∧
       ns w' = ns (world0 heldZ [])).
Proof.
  assert (registry_ok heldZ) as Hok.
  { apply registry_ok_singleton. simpl. unfold MaxInt32. lia. }
  assert (headroom (Z.of_nat (length (paths instAZ))) heldZ) as Hroom.
  { apply headroom_singleton; simpl; unfold MaxInt32; lia. }
  split; [reflexivity|]. split; [exact Hok|]. split; [exact Hroom|].
  exact (GetLock_timeout_unwinds false instAZ requestCtx (world0 heldZ []) heldZ
           eq_refl Hok Hroom).
Defined.

Lemma registry_invariant_preserved_witness :
  lockMap (ns (world0 heldZ [])) = Some heldZ ∧
  registry_ok heldZ ∧
  ((∀ r, refOf heldZ r < MaxInt32 → ok_after (lock_enter r (world0 heldZ []))) ∧
   (∀ r ctx id src b t, ok_after (lock_wait r ctx id src b t (world0 heldZ []))) ∧
   (∀ r, ok_after (lock_leave r (world0 heldZ []))) ∧
   (∀ vol p b, ok_after (unlock vol p b (world0 heldZ []))) ∧
   (∀ ctx vol p src id b t,
      refOf heldZ (pathJoin vol p) < MaxInt32 →
      ∃ locked w', lock ctx vol p src id b t (world0 heldZ []) = Ret locked w' ∧
                   ok_after (Ret locked w')) ∧
   (∀ w0 vol p b w' m',
      unlock vol p b w0 = Ret tt w' → lockMap (ns w') = Some m' →
      0 ≤ refOf m' (pathJoin vol p))).
Proof.
  assert (registry_ok heldZ) as Hok.
  { apply registry_ok_singleton. simpl. unfold MaxInt32. lia. }
  split; [reflexivity|]. split; [exact Hok|].
  exact (registry_invariant_preserved (world0 heldZ []) heldZ eq_refl Hok).
Defined.

Lemma GetLock_success_grants_all_witness :
  localLockInstance_GetLock instAZ requestCtx (world0 ∅ [])
    = Ret (Some requestCtx, None) grantedAZ ∧
  ((∀ p, p ∈ paths instAZ → heldAt grantedAZ false (pathJoin (volume instAZ) p)) ∧
   ∃ tr,
     trace grantedAZ = trace (world0 ∅ []) ++ tr ∧
     logSuccesses tr = [Time_Sub (clock (amb grantedAZ)) (clock (amb (world0 ∅ [])))] ∧
     logFailures tr = O ∧
     dt (amb grantedAZ) =
       LogSuccess (Time_Sub (clock (amb grantedAZ)) (clock (amb (world0 ∅ []))))
                  (dt (interfereN (length (paths instAZ)) (amb (world0 ∅ []))))).
Proof.
  assert (localLockInstance_GetLock instAZ requestCtx (world0 ∅ [])
            = Ret (Some requestCtx, None) grantedAZ) as Hrun.
  { vm_compute. reflexivity. }
  split; [exact Hrun|].
  exact (GetLock_success_grants_all false instAZ requestCtx (world0 ∅ []) grantedAZ
           (Some requestCtx) Hrun).
Defined.

Lemma lock_then_unlock_restores_witness :
  lockMap (ns (world0 readA [])) = Some readA ∧
  registry_ok readA ∧
  lock requestCtx "b" "a" (getSource 2) "op-1" true second (world0 readA [])
    = Ret true lockedA ∧
  ∃ w2 m2,
    unlock "b" "a" true lockedA = Ret tt w2 ∧
    lockMap (ns w2) = Some m2 ∧
    dom m2 = dom readA ∧
    (∀ k, refOf m2 k = refOf readA k) ∧
    m2 = readA.
Proof.
  assert (registry_ok readA) as Hok.
  { apply registry_ok_singleton. simpl. unfold MaxInt32. lia. }
  assert (lock requestCtx "b" "a" (getSource 2) "op-1" true second (world0 readA [])
            = Ret true lockedA) as Hrun.
  { vm_compute. reflexivity. }
  split; [reflexivity|]. split; [exact Hok|]. split; [exact Hrun|].
  exact (lock_then_unlock_restores requestCtx "b" "a" (getSource 2) "op-1" true second
           (world0 readA []) lockedA readA eq_refl Hok Hrun).
Defined.

Lemma unlock_absent_returns_witness :
  lockMap (ns (world0 heldZ [])) ≫= (.!! pathJoin "b" "a") = None ∧
  (unlock "b" "a" false (world0 heldZ []) = Ret tt (world0 heldZ []) ∧
   releases (trace (worldOf (unlock "b" "a" false (world0 heldZ []))))
     = releases (trace (world0 heldZ []))).
Proof.
  assert (lockMap (ns (world0 heldZ [])) ≫= (.!! pathJoin "b" "a") = None) as Habs.
  { vm_compute. reflexivity. }
  split; [exact Habs|].
  exact (unlock_absent_returns "b" "a" false (world0 heldZ []) Habs).
Defined.

Lemma GetLock_returned_context_witness :
  localLockInstance_GetRLock instAZ requestCtx (world0 heldZ [])
    = Ret (None, Some OperationTimedOut)
          (worldOf (localLockInstance_GetRLock instAZ requestCtx (world0 heldZ []))) ∧
  ((Some OperationTimedOut = None ∧ None = Some requestCtx) ∨
   (Some OperationTimedOut = Some OperationTimedOut ∧ @None Context = None)).
Proof.
  assert (localLockInstance_GetRLock instAZ requestCtx (world0 heldZ [])
            = Ret (None, Some OperationTimedOut)
                (worldOf (localLockInstance_GetRLock instAZ requestCtx (world0 heldZ []))))
    as Hrun.
  { vm_compute. reflexivity. }
  split; [exact Hrun|].
  exact (GetLock_returned_context true instAZ requestCtx (world0 heldZ []) _ None
           (Some OperationTimedOut) Hrun).
Defined.

(** C7, the claim as stated, fails.  While the first sub-acquire blocks, the
    other goroutines complete a window of failures; the second sub-acquire
    is handed the raised timeout, read anew: the value was not captured once
    at the start of the call. *)
Lemma GetLock_timeout_not_captured_once :
  let w := world0 ∅ [busyStep] in
  let tr := trace (worldOf (localLockInstance_GetLock instAZ requestCtx w)) in
  timeoutReads tr = [60 * second; 120 * second] ∧
  acquireTimeouts tr = [60 * second; 120 * second] ∧
  ¬ timeout_captured_once (amb w) tr.
Proof.
  cbv zeta. split; [vm_compute; reflexivity|]. split; [vm_compute; reflexivity|].
  intros [Hlen _]. revert Hlen. vm_compute. discriminate.
Qed.

(** C6.  [distLockInstance.GetRLock] hands the mutex the caller's context,
    where [distLockInstance.GetLock] hands it the child made by
    [context.WithCancel]; both return that child on success. *)
Lemma distLockInstance_GetRLock_hands_caller_context :
  let w := world0 ∅ [grantStep] in
  distAcquires (trace (worldOf (distLockInstance_GetRLock distA requestCtx w)))
    = [(["b/a"], requestCtx, true)] ∧
  distAcquires (trace (worldOf (distLockInstance_GetLock distA requestCtx w)))
    = [(["b/a"], CtxWithCancel requestCtx, false)] ∧
  requestCtx ≠ CtxWithCancel requestCtx.
Proof. cbv zeta. split; [|split]; [vm_compute; reflexivity .. | discriminate]. Qed.

(** * Further properties of the code *)

Section Further.
Context `{Collaborators}.

Ltac mrun :=
  unfold interfere, UTCNow, DT_Timeout, DT_LogSuccess, DT_LogFailure,
    CriticalIf, mbind, M_bind, mret, M_ret, panic, emit, getMap, putMap,
    getAmbient, putAmbient in *.

#[local] Arguments interfereA : simpl never.
#[local] Arguments mutexAcquire : simpl never.
#[local] Arguments mutexRelease : simpl never.
#[local] Arguments acqEntry : simpl never.

(** ** The order of [sort.Strings] *)

Lemma ascii_compare_trans_le a b c :
  Ascii.compare a b ≠ Gt → Ascii.compare b c ≠ Gt → Ascii.compare a c ≠ Gt.
Proof.
  unfold Ascii.compare. rewrite !N.compare_gt_iff. lia.
Qed.

Lemma string_compare_refl s : String.compare s s = Eq.
Proof.
  induction s as [|a s IH]; simpl; [done|].
  unfold Ascii.compare. by rewrite N.compare_refl.
Qed.

Lemma string_compare_trans_le s1 : ∀ s2 s3,
  String.compare s1 s2 ≠ Gt → String.compare s2 s3 ≠ Gt →
  String.compare s1 s3 ≠ Gt.
Proof.
  induction s1 as [|a s1 IH]; intros [|b s2] [|c s3]; simpl; try done.
  unfold Ascii.compare.
  destruct (N.compare_spec (Ascii.N_of_ascii a) (Ascii.N_of_ascii b)) as [Hab|Hab|Hab];
    destruct (N.compare_spec (Ascii.N_of_ascii b) (Ascii.N_of_ascii c)) as [Hbc|Hbc|Hbc];
    destruct (N.compare_spec (Ascii.N_of_ascii a) (Ascii.N_of_ascii c)) as [Hac|Hac|Hac];
    try done; try lia.
  apply IH.
Qed.

Lemma string_le_trans x y z : string_le x y → string_le y z → string_le x z.
Proof.
  unfold string_le, String.leb. intros Hxy Hyz.
  pose proof (string_compare_trans_le x y z) as Ht.
  destruct (String.compare x y); try discriminate;
    destruct (String.compare y z); try discriminate;
    destruct (String.compare x z); try done; by exfalso; apply Ht.
Qed.

Lemma string_le_refl x : string_le x x.
Proof. unfold string_le, String.leb. by rewrite string_compare_refl. Qed.

Lemma sorted_head_least x l :
  Sorted string_le (x :: l) → ∀ y, y ∈ x :: l → string_le x y.
Proof.
  revert x. induction l as [|z l IH]; intros x Hs y Hy.
  - apply list_elem_of_singleton in Hy as ->. apply string_le_refl.
  - apply elem_of_cons in Hy as [->|Hy]; [apply string_le_refl|].
    apply Sorted_inv in Hs as [Hs Hhd]. apply HdRel_inv in Hhd.
    eapply string_le_trans; [exact Hhd | by apply IH].
Qed.

Lemma sorted_perm_unique l1 : ∀ l2,
  Sorted string_le l1 → Sorted string_le l2 → l1 ≡ₚ l2 → l1 = l2.
Proof.
  induction l1 as [|x l1 IH]; intros l2 Hs1 Hs2 Hp.
  - by apply Permutation_nil_l in Hp.
  - destruct l2 as [|y l2]; [by apply Permutation_nil_r in Hp|].
    assert (x = y) as ->.
    { apply String.leb_antisym.
      - apply (sorted_head_least x l1 Hs1). rewrite Hp. by left.
      - apply (sorted_head_least y l2 Hs2). rewrite <- Hp. by left. }
    f_equal. apply IH.
    + by apply Sorted_inv in Hs1 as [? _].
    + by apply Sorted_inv in Hs2 as [? _].
    + by apply Permutation_cons_inv in Hp.
Qed.

(** X1.  On a local registry the instance [NewNSLock] returns does not
    depend on the order in which the caller names the paths: two callers
    that name the same paths, each as often, get instances with the same
    list of paths, so they acquire in the same order.  Paths that are
    already in ascending order are kept as they are. *)
Theorem NewNSLock_ignores_caller_order (n : NsLockMap) (opsID vol : string)
    (ps ps' : list string) :
  isDistErasure n = false →
  ps ≡ₚ ps' →
  NsLockMap_NewNSLock n opsID vol ps = NsLockMap_NewNSLock n opsID vol ps' ∧
  (Sorted string_le ps →
   NsLockMap_NewNSLock n opsID vol ps =
     LocalLocker (mkLocalLockInstance vol ps opsID)).
Proof.
  intros Hlocal Hp. unfold NsLockMap_NewNSLock. rewrite Hlocal. split.
  - do 2 f_equal. apply sorted_perm_unique; try apply sort_Strings_sorted.
    by rewrite !sort_Strings_perm.
  - intros Hs. do 2 f_equal.
    apply sorted_perm_unique; [apply sort_Strings_sorted | done |].
    apply sort_Strings_perm.
Qed.

(** ** What the operations leave alone *)

Lemma keeps_bind {A B} r (c : M A) (f : A → M B) :
  keeps r c → (∀ a, keeps r (f a)) → keeps r (c ≫= f).
Proof.
  intros Hc Hf w. specialize (Hc w). unfold mbind, M_bind.
  destruct (c w) as [a w1|msg w1]; simpl in *; [|done].
  destruct (Hf a w1) as [Hl Hd]. by rewrite Hl, Hd.
Qed.

Lemma keeps_ret {A} r (a : A) : keeps r (mret a : M A).
Proof. done. Qed.

Lemma keeps_panic {A} r msg : keeps r (panic msg : M A).
Proof. done. Qed.

Lemma keeps_emit r e : keeps r (emit e).
Proof. done. Qed.

Lemma keeps_UTCNow r : keeps r UTCNow.
Proof. done. Qed.

Lemma keeps_DT_Timeout r : keeps r DT_Timeout.
Proof. done. Qed.

Lemma keeps_DT_LogSuccess r d : keeps r (DT_LogSuccess d).
Proof. done. Qed.

Lemma keeps_DT_LogFailure r : keeps r DT_LogFailure.
Proof. done. Qed.

Lemma keeps_lock r ctx vol p src id b t :
  r ≠ pathJoin vol p → keeps r (lock ctx vol p src id b t).
Proof.
  intros Hne w. unfold look, lock, lock_enter, lock_wait, lock_leave. mrun.
  remember (pathJoin vol p) as q eqn:Hq. simpl.
  destruct (lockMap (ns w)) as [m|] eqn:Hm; simpl; [|by rewrite Hm].
  rewrite lookup_insert_eq. simpl. rewrite insert_insert_eq.
  destruct (mutexAcquire b _ t _) as [locked lm] eqn:Hres. simpl.
  destruct locked; simpl; [by rewrite lookup_insert_ne|].
  rewrite lookup_insert_eq. simpl. rewrite insert_insert_eq.
  destruct (int32 (int32 _ - 1) <? 0); simpl; [by rewrite lookup_insert_ne|].
  destruct (int32 (int32 _ - 1) =? 0); simpl.
  - by rewrite lookup_delete_ne, lookup_insert_ne.
  - by rewrite lookup_insert_ne.
Qed.

Lemma keeps_unlock r vol p b : r ≠ pathJoin vol p → keeps r (unlock vol p b).
Proof.
  intros Hne w. unfold look, unlock. mrun.
  remember (pathJoin vol p) as q eqn:Hq. simpl.
  destruct (lockMap (ns w)) as [m|] eqn:Hm; simpl; [|by rewrite Hm].
  destruct (m !! q) as [e|] eqn:He; simpl; [|by rewrite Hm].
  destruct (mutexRelease b (mu e)) as [lm|]; simpl; [|by rewrite Hm].
  destruct (int32 (ref e - 1) <? 0); simpl; [by rewrite lookup_insert_ne|].
  destruct (int32 (ref e - 1) =? 0); simpl.
  - by rewrite lookup_delete_ne, lookup_insert_ne.
  - by rewrite lookup_insert_ne.
Qed.

Lemma keeps_unlockPaths r vol b ps :
  r ∉ pathsJoinPrefix vol ps → keeps r (unlockPaths vol b ps).
Proof.
  induction ps as [|p ps IH]; intros Hnot; simpl; [apply keeps_ret|].
  unfold pathsJoinPrefix in Hnot. simpl in Hnot.
  apply not_elem_of_cons in Hnot as [Hne Hnot].
  apply keeps_bind; [by apply keeps_unlock | intros _; by apply IH].
Qed.

Lemma keeps_releaseGranted r li b success : ∀ si,
  r ∉ pathsJoinPrefix (volume li) (paths li) →
  keeps r (releaseGranted li b si success).
Proof.
  induction success as [|sint success IH]; intros si Hnot; simpl;
    [apply keeps_ret|].
  apply keeps_bind; [|intros _; by apply IH].
  destruct (sint =? 1); [|apply keeps_ret].
  destruct (paths li !! si) as [p|] eqn:Hp; [|apply keeps_panic].
  apply keeps_unlock. intros ->. apply Hnot.
  unfold pathsJoinPrefix. apply list_elem_of_In, in_map, list_elem_of_In.
  by eapply list_elem_of_lookup_2.
Qed.

Lemma keeps_acquirePaths r li ctx src b start todo : ∀ i success,
  r ∉ pathsJoinPrefix (volume li) (paths li) →
  r ∉ pathsJoinPrefix (volume li) todo →
  keeps r (acquirePaths li ctx src b start i todo success).
Proof.
  induction todo as [|p todo IH]; intros i success Hall Hnot; simpl.
  - apply keeps_bind; [apply keeps_UTCNow|]. intros now.
    apply keeps_bind; [apply keeps_DT_LogSuccess | intros _; apply keeps_ret].
  - unfold pathsJoinPrefix in Hnot. simpl in Hnot.
    apply not_elem_of_cons in Hnot as [Hne Hnot].
    apply keeps_bind; [apply keeps_DT_Timeout|]. intros t.
    apply keeps_bind; [by apply keeps_lock|]. intros locked.
    destruct locked; simpl; [by apply IH|].
    apply keeps_bind; [apply keeps_DT_LogFailure|]. intros _.
    apply keeps_bind; [by apply keeps_releaseGranted | intros _; apply keeps_ret].
Qed.

(** X2.  [NsLockMap.lock] and [NsLockMap.unlock] change no entry but the
    one of their own resource: whatever the outcome (granted, refused,
    panic), the entry of every other resource and the backend flag are as
    before. *)
Theorem lock_unlock_touch_own_entry_only (r : string) (ctx : Context)
    (vol p src id : string) (b : bool) (t : Z) (w : World) :
  r ≠ pathJoin vol p →
  look r (worldOf (lock ctx vol p src id b t w)) = look r w ∧
  look r (worldOf (unlock vol p b w)) = look r w ∧
  isDistErasure (ns (worldOf (lock ctx vol p src id b t w))) = isDistErasure (ns w) ∧
  isDistErasure (ns (worldOf (unlock vol p b w))) = isDistErasure (ns w).
Proof.
  intros Hne.
  destruct (keeps_lock r ctx vol p src id b t Hne w) as [Hl Hd].
  destruct (keeps_unlock r vol p b Hne w) as [Hl' Hd']. done.
Qed.

(** X3.  The four operations of a local instance change no entry but those
    of the resources its paths name: for every other resource the entry is
    the same after [GetLock], [GetRLock], [Unlock] and [RUnlock], whether
    the operation returned or panicked. *)
Theorem local_instance_touches_own_entries_only (r : string)
    (li : localLockInstance) (ctx : Context) (w : World) :
  r ∉ pathsJoinPrefix (volume li) (paths li) →
  look r (worldOf (localLockInstance_GetLock li ctx w)) = look r w ∧
  look r (worldOf (localLockInstance_GetRLock li ctx w)) = look r w ∧
  look r (worldOf (localLockInstance_Unlock li w)) = look r w ∧
  look r (worldOf (localLockInstance_RUnlock li w)) = look r w.
Proof.
  intros Hnot.
  assert (∀ b, keeps r (start ← UTCNow;
                        acquirePaths li ctx (getSource 2) b start 0 (paths li)
                          (replicate (length (paths li)) 0))) as Hacq.
  { intros b. apply keeps_bind; [apply keeps_UTCNow|]. intros start.
    by apply keeps_acquirePaths. }
  split; [apply (Hacq false)|]. split; [apply (Hacq true)|].
  split; by apply keeps_unlockPaths.
Qed.

(** ** Acquire, then release *)

Lemma acquirePaths_granted li b m0 ctx src start todo : ∀ done i success w m octx w1,
  lockMap (ns w) = Some m →
  granted_on m0 b (volume li) done m →
  acquirePaths li ctx src b start i todo success w = Ret (octx, None) w1 →
  ∃ m1, lockMap (ns w1) = Some m1 ∧
        isDistErasure (ns w1) = isDistErasure (ns w) ∧
        granted_on m0 b (volume li) (done ++ todo) m1.
Proof.
  induction todo as [|p todo IH]; intros done i success w m octx w1 Hm Hg Hrun.
  - simpl in Hrun. mrun. simpl in Hrun. injection Hrun as _ <-.
    exists m. by rewrite app_nil_r.
  - simpl in Hrun. unfold DT_Timeout at 1 in Hrun.
    unfold mbind at 1 2 3 4, M_bind, mret, M_ret, emit, getAmbient in Hrun.
    simpl in Hrun.
    destruct (lock ctx (volume li) p src (li_opsID li) b _ _)
      as [locked w2|msg w2] eqn:Hlock; [|discriminate].
    destruct locked; simpl in Hrun;
      [|by apply unwinding_is_no_success in Hrun].
    apply lock_granted in Hlock as (m' & Hm' & Hfree & ->). simpl in Hm'.
    rewrite Hm in Hm'. injection Hm' as <-.
    eapply (IH (done ++ [p])) in Hrun as (m1 & Hm1 & Hd & Hg1);
      [| reflexivity | by apply granted_on_snoc].
    exists m1. by rewrite <- app_assoc in Hg1.
Qed.

Lemma unlockPaths_wf li b m0 K rest :
  registry_ok m0 → headroom K m0 → ∀ w m,
  lockMap (ns w) = Some m →
  granted_on m0 b (volume li) rest m →
  Z.of_nat (length rest) ≤ K →
  unlockPaths (volume li) b rest w =
    Ret tt (mkWorld (mkNsLockMap (isDistErasure (ns w)) (Some m0)) (amb w)
              (trace w ++ releaseEvents b (volume li) rest)).
Proof.
  intros Hok Hroom.
  induction rest as [|p rest IH]; intros w m Hm Hg Hlen.
  - simpl. rewrite app_nil_r.
    assert (m = m0) as ->.
    { apply map_eq. intros r. by destruct (Hg r) as [-> _]. }
    rewrite (nsmap_eta _ _ Hm). by rewrite world_eta.
  - simpl in Hlen. simpl. mrun. simpl.
    set (r := pathJoin (volume li) p).
    set (x := stack b (cnt (volume li) r rest) (m0 !! r)).
    assert (m !! r = Some (acqEntry b x)) as He.
    { destruct (Hg r) as [-> _]. rewrite cnt_cons.
      unfold r. by rewrite decide_True. }
    assert (S (cnt (volume li) r rest) = cnt (volume li) r (p :: rest)) as Hc.
    { rewrite cnt_cons. unfold r. by rewrite decide_True. }
    pose proof (cnt_le (volume li) r rest) as Hcl.
    rewrite (unlock_held _ _ _ _ m x Hm He).
    + rewrite (IH _ (partial_alter (λ _, x) r m)); simpl.
      * by rewrite <- app_assoc.
      * done.
      * intros r'. rewrite lookup_partial_alter.
        destruct (Hg r') as [Hl Hv]. rewrite cnt_cons in Hl, Hv.
        fold r in Hl, Hv. case_decide as Heq.
        -- subst r'. split; [done|]. intros j Hj. apply Hv. lia.
        -- done.
      * lia.
    + intros e Hx.
      eapply (stack_entry_ok b K (m0 !! r) (cnt (volume li) r rest)) in Hx.
      * lia.
      * intros e0 He0. by eapply registry_ok_pos.
      * rewrite <- refOf_default. apply Hroom.
      * lia.
    + destruct (Hg r) as [_ Hv]. apply Hv. lia.
Qed.

Lemma granted_on_nil m0 b vol : granted_on m0 b vol [] m0.
Proof. intros r. rewrite cnt_nil. split; [done | lia]. Qed.

(** X4.  On a registry that satisfies its invariant, with room in the counts
    for the paths of the instance, a [GetLock] that succeeded followed by
    [Unlock] (a [GetRLock] followed by [RUnlock]) returns and leaves the
    registry as it was before the acquire; the release calls the mutex of
    every path once, in the order of the paths. *)
Theorem GetLock_then_Unlock_restores (readLock : bool) (li : localLockInstance)
    (ctx : Context) (w w1 : World) (m : gmap string nsLock)
    (octx : option Context) :
  lockMap (ns w) = Some m →
  registry_ok m →
  headroom (Z.of_nat (length (paths li))) m →
  (if readLock then localLockInstance_GetRLock li ctx
   else localLockInstance_GetLock li ctx) w = Ret (octx, None) w1 →
  (if readLock then localLockInstance_RUnlock li
   else localLockInstance_Unlock li) w1 =
    Ret tt (mkWorld (ns w) (amb w1)
              (trace w1 ++ releaseEvents readLock (volume li) (paths li))).
Proof.
  intros Hm Hok Hroom Hcall.
  assert (acquirePaths li ctx (getSource 2) readLock (clock (amb w)) 0 (paths li)
            (replicate (length (paths li)) 0) w = Ret (octx, None) w1) as Hrun.
  { destruct readLock; exact Hcall. }
  apply (acquirePaths_granted li readLock m _ _ _ _ [] _ _ w m) in Hrun
    as (m1 & Hm1 & Hd & Hg); [|done|apply granted_on_nil].
  assert (unlockPaths (volume li) readLock (paths li) w1 =
            Ret tt (mkWorld (ns w) (amb w1)
                      (trace w1 ++ releaseEvents readLock (volume li) (paths li))))
    as Hun.
  { rewrite (unlockPaths_wf li readLock m _ (paths li) Hok Hroom w1 m1 Hm1 Hg);
      [|lia].
    rewrite Hd. by rewrite (nsmap_eta _ _ Hm). }
  destruct readLock; exact Hun.
Qed.

(** X5.  After a [GetLock] or [GetRLock] that succeeded (same registries as
    for X4), the count of every resource is its count before the call plus
    the number of paths of the instance that name it: each granted path adds
    one reference, a path named twice adds two, other resources none. *)
Theorem GetLock_counts_its_grants (readLock : bool) (li : localLockInstance)
    (ctx : Context) (w w1 : World) (m : gmap string nsLock)
    (octx : option Context) :
  lockMap (ns w) = Some m →
  registry_ok m →
  headroom (Z.of_nat (length (paths li))) m →
  (if readLock then localLockInstance_GetRLock li ctx
   else localLockInstance_GetLock li ctx) w = Ret (octx, None) w1 →
  ∃ m1, lockMap (ns w1) = Some m1 ∧
        registry_ok m1 ∧
        ∀ r, refOf m1 r = refOf m r + Z.of_nat (cnt (volume li) r (paths li)).
Proof.
  intros Hm Hok Hroom Hcall.
  assert (acquirePaths li ctx (getSource 2) readLock (clock (amb w)) 0 (paths li)
            (replicate (length (paths li)) 0) w = Ret (octx, None) w1) as Hrun.
  { destruct readLock; exact Hcall. }
  apply (acquirePaths_granted li readLock m _ _ _ _ [] _ _ w m) in Hrun
    as (m1 & Hm1 & Hd & Hg); [|done|apply granted_on_nil].
  simpl in Hg. exists m1. split; [done|].
  assert (∀ r, refOf m1 r = refOf m r + Z.of_nat (cnt (volume li) r (paths li)))
    as Hcount.
  { intros r. destruct (Hg r) as [Hl _].
    rewrite !refOf_default, Hl.
    apply (stack_ref readLock (Z.of_nat (length (paths li)))).
    - intros e He. by eapply registry_ok_pos.
    - rewrite <- refOf_default. apply Hroom.
    - pose proof (cnt_le (volume li) r (paths li)). lia. }
  split; [|done]. intros r. rewrite Hcount.
  destruct (Hok r) as [[Hpos Hsome] Hmax]. destruct (Hg r) as [Hl _].
  pose proof (cnt_le (volume li) r (paths li)) as Hc.
  pose proof (Hroom r) as Hr.
  assert (0 ≤ refOf m r).
  { unfold refOf in *. destruct (m !! r); [|lia].
    assert (0 < ref n) by (apply Hpos; eauto). lia. }
  split; [|lia]. rewrite Hl.
  destruct (cnt (volume li) r (paths li)) as [|k] eqn:Hk; simpl.
  - rewrite Z.add_0_r. split; [apply Hpos | apply Hsome].
  - split; [lia | eauto].
Qed.

(** ** Refusals *)

(** X6.  On a registry that satisfies its invariant, a [lock] that is not
    granted returns [false] with the registry exactly as it found it: the
    reference it took is given back, and an entry it had created for the
    wait is removed again.  Its only traces are the blocking call it made
    and the time that passed. *)
Theorem lock_refused_restores (ctx : Context) (vol p src id : string)
    (b : bool) (t : Z) (w w' : World) (m : gmap string nsLock) :
  lockMap (ns w) = Some m →
  registry_ok m →
  lock ctx vol p src id b t w = Ret false w' →
  w' = mkWorld (ns w) (interfereA (amb w))
         (trace w ++ [EvAcquire (pathJoin vol p) b t false]).
Proof.
  intros Hm Hok.
  rewrite (lock_run ctx vol p src id b t w m Hm);
    [|by intros e He; eapply registry_ok_entry].
  destruct (mutexAcquire b _ t _) as [locked lm]. simpl.
  destruct locked; [discriminate|]. intros [= <-].
  by rewrite (nsmap_eta _ _ Hm).
Qed.

Lemma acquires_app l1 l2 : acquires (l1 ++ l2) = acquires l1 ++ acquires l2.
Proof. apply omap_app. Qed.

Lemma grantEvents_acquired b vol a ps :
  acquires (grantEvents b vol a ps) = map (λ q, (pathJoin vol q, b, true)) ps.
Proof.
  revert a. induction ps as [|p ps IH]; intros a; [done|].
  unfold acquires. simpl. f_equal. exact (IH _).
Qed.

Lemma releaseEvents_acquired b vol ps : acquires (releaseEvents b vol ps) = [].
Proof.
  induction ps as [|p ps IH]; [done|].
  unfold acquires, releaseEvents. simpl. exact IH.
Qed.

Lemma silent_acquires tr : silent tr → acquires tr = [].
Proof.
  intros [_ Hacq]. induction tr as [|e tr IH]; [done|].
  destruct e; try discriminate Hacq; exact (IH Hacq).
Qed.

Lemma acquirePaths_refusal li ctx src b start todo : ∀ i success w octx err w',
  acquirePaths li ctx src b start i todo success w = Ret (octx, Some err) w' →
  ∃ granted p rest tr,
    todo = granted ++ p :: rest ∧
    trace w' = trace w ++ tr ∧
    acquires tr =
      map (λ q, (pathJoin (volume li) q, b, true)) granted
      ++ [(pathJoin (volume li) p, b, false)].
Proof.
  induction todo as [|p todo IH]; intros i success w octx err w' Hrun.
  - simpl in Hrun. mrun. simpl in Hrun. discriminate Hrun.
  - simpl in Hrun. unfold DT_Timeout at 1 in Hrun.
    unfold mbind at 1 2 3 4, M_bind, mret, M_ret, emit, getAmbient in Hrun.
    simpl in Hrun.
    set (t := Timeout (dt (amb w))) in *.
    set (w0 := mkWorld (ns w) (amb w) (trace w ++ [EvTimeout t])) in *.
    destruct (lock_shape ctx (volume li) p src (li_opsID li) b t w0)
      as [[_ (msg & w2 & Hpanic)] | (l & Htr & _ & Hres)];
      [by rewrite Hpanic in Hrun|].
    destruct (lock ctx (volume li) p src (li_opsID li) b t w0)
      as [locked w2|msg w2] eqn:Hlock; [|discriminate Hrun].
    simpl in Htr.
    destruct Hres as [[= <-] | [_ [msg [=]]]].
    destruct locked; simpl in Hrun.
    + apply IH in Hrun as (granted & q & rest & tr & -> & Hw' & Hacq).
      exists (p :: granted), q, rest, ([EvTimeout t; EvAcquire (pathJoin (volume li) p) b t true] ++ tr).
      split; [done|]. split.
      * rewrite Hw', Htr. simpl. by rewrite <- !app_assoc.
      * rewrite acquires_app, Hacq. done.
    + destruct (releaseGranted_silent li b success 0
                  (mkWorld (ns w2) (logFailureA (amb w2)) (trace w2 ++ [EvLogFailure])))
        as (tr & Hrel & Hsilent).
      revert Hrun. mrun. simpl.
      destruct (releaseGranted li b 0 success _) as [[] w3|msg w3];
        [|discriminate]. simpl in Hrel. intros [= _ _ <-].
      exists [], p, todo,
        ([EvTimeout t; EvAcquire (pathJoin (volume li) p) b t false; EvLogFailure] ++ tr).
      split; [done|]. split.
      * rewrite Hrel, Htr. simpl. by rewrite <- !app_assoc.
      * rewrite acquires_app, (silent_acquires _ Hsilent). done.
Qed.

(** X7.  A [GetLock] or [GetRLock] that returns an error, on any registry,
    stopped at the first path that was refused: the sub-acquires it made are
    those of the paths before it, all granted, and the refused one, in the
    order of the paths; no later path was tried and none was tried twice. *)
Theorem GetLock_stops_at_first_refusal (readLock : bool) (li : localLockInstance)
    (ctx : Context) (w w' : World) (octx : option Context) (err : error) :
  (if readLock then localLockInstance_GetRLock li ctx
   else localLockInstance_GetLock li ctx) w = Ret (octx, Some err) w' →
  ∃ granted p rest tr,
    paths li = granted ++ p :: rest ∧
    trace w' = trace w ++ tr ∧
    acquires tr =
      map (λ q, (pathJoin (volume li) q, readLock, true)) granted
      ++ [(pathJoin (volume li) p, readLock, false)].
Proof.
  intros Hcall.
  apply (acquirePaths_refusal li ctx (getSource 2) readLock (clock (amb w))
           (paths li) O (replicate (length (paths li)) 0) w octx err w').
  destruct readLock; exact Hcall.
Qed.

Lemma conflict_blocks li ctx src b start todo : ∀ i success w r e octx w',
  look r w = Some e →
  ¬ grantable b (mu e) →
  r ∈ pathsJoinPrefix (volume li) todo →
  acquirePaths li ctx src b start i todo success w ≠ Ret (octx, None) w'.
Proof.
  induction todo as [|p todo IH]; intros i success w r e octx w' Hlook Hbusy Hin Hrun.
  - by apply elem_of_nil in Hin.
  - simpl in Hrun. unfold DT_Timeout at 1 in Hrun.
    unfold mbind at 1 2 3 4, M_bind, mret, M_ret, emit, getAmbient in Hrun.
    simpl in Hrun.
    destruct (lock ctx (volume li) p src (li_opsID li) b _ _)
      as [locked w2|msg w2] eqn:Hlock; [|discriminate].
    destruct locked; simpl in Hrun;
      [|by apply unwinding_is_no_success in Hrun].
    apply lock_granted in Hlock as (m & Hm & Hfree & ->). simpl in Hm.
    unfold look in Hlook. rewrite Hm in Hlook. simpl in Hlook.
    unfold pathsJoinPrefix in Hin. simpl in Hin.
    apply elem_of_cons in Hin as [->|Hin].
    + rewrite Hlook in Hfree. by apply Hbusy.
    + destruct (decide (r = pathJoin (volume li) p)) as [->|Hne].
      * rewrite Hlook in Hfree. by apply Hbusy.
      * eapply IH in Hrun; [done| |exact Hbusy|exact Hin].
        unfold look. simpl. by rewrite lookup_insert_ne.
Qed.

(** X8.  Mutual exclusion at the level of instances.  If one of the
    resources an instance names has an entry whose mutex cannot be granted
    in the requested mode (it is write-held, or it is read-held and the
    write lock is asked for), and the holder keeps it during the call, then
    [GetLock] / [GetRLock] never returns a [nil] error, on any registry.  On
    a registry that satisfies its invariant, with room in the counts below
    the [int32] maximum for one increment per path, the call returns
    [OperationTimedOut] and leaves the registry exactly as the holder had
    it. *)
Theorem GetLock_conflict_times_out (readLock : bool) (li : localLockInstance)
    (ctx : Context) (w : World) (m : gmap string nsLock) (r : string)
    (e : nsLock) :
  lockMap (ns w) = Some m →
  r ∈ pathsJoinPrefix (volume li) (paths li) →
  m !! r = Some e →
  ¬ grantable readLock (mu e) →
  (∀ octx w', (if readLock then localLockInstance_GetRLock li ctx
               else localLockInstance_GetLock li ctx) w ≠ Ret (octx, None) w') ∧
  (registry_ok m →
   headroom (Z.of_nat (length (paths li))) m →
   ∃ w', (if readLock then localLockInstance_GetRLock li ctx
          else localLockInstance_GetLock li ctx) w
           = Ret (None, Some OperationTimedOut) w' ∧
         ns w' = ns w).
Proof.
  intros Hm Hin He Hbusy.
  assert (∀ octx w', (if readLock then localLockInstance_GetRLock li ctx
                      else localLockInstance_GetLock li ctx) w
                     ≠ Ret (octx, None) w') as Hnever.
  { intros octx w' Hcall.
    assert (acquirePaths li ctx (getSource 2) readLock (clock (amb w)) O (paths li)
              (replicate (length (paths li)) 0) w = Ret (octx, None) w') as Hrun.
    { destruct readLock; exact Hcall. }
    eapply conflict_blocks in Hrun; [done| |exact Hbusy|exact Hin].
    unfold look. by rewrite Hm. }
  split; [exact Hnever|]. intros Hok Hroom.
  destruct (acquirePaths_wf li readLock m ctx (getSource 2) (clock (amb w))
              Hok Hroom (paths li) [] w m eq_refl Hm (granted_on_nil _ _ _))
    as (res & w1 & Hrun & Hcase).
  destruct Hcase as [[-> _] | (granted & p & rest & _ & -> & Hw)].
  - exfalso. apply (Hnever (Some ctx) w1). destruct readLock; exact Hrun.
  - exists w1. split; [by destruct readLock|].
    cbv zeta in Hw. rewrite Hw. simpl. by apply nsmap_eta.
Qed.

Lemma duplicate_blocks li ctx src start todo : ∀ i success w octx w',
  ¬ NoDup (pathsJoinPrefix (volume li) todo) →
  acquirePaths li ctx src false start i todo success w ≠ Ret (octx, None) w'.
Proof.
  induction todo as [|p todo IH]; intros i success w octx w' Hdup Hrun.
  - apply Hdup. constructor.
  - pose proof Hrun as Hrun'.
    simpl in Hrun. unfold DT_Timeout at 1 in Hrun.
    unfold mbind at 1 2 3 4, M_bind, mret, M_ret, emit, getAmbient in Hrun.
    simpl in Hrun.
    destruct (lock ctx (volume li) p src (li_opsID li) false _ _)
      as [locked w2|msg w2] eqn:Hlock; [|discriminate].
    destruct locked; simpl in Hrun;
      [|by apply unwinding_is_no_success in Hrun].
    apply lock_granted in Hlock as (m & Hm & Hfree & ->).
    destruct (decide (pathJoin (volume li) p ∈ pathsJoinPrefix (volume li) todo))
      as [Hin|Hnin].
    + eapply conflict_blocks in Hrun; [done| | |exact Hin].
      * unfold look. simpl. by rewrite lookup_insert_eq.
      * unfold acqEntry, grantable. simpl. by intros [? _].
    + eapply IH in Hrun; [done|]. intros Hnd. apply Hdup.
      unfold pathsJoinPrefix. simpl. by apply NoDup_cons.
Qed.

(** X9.  The write lock is not reentrant: [GetLock] on an instance two of
    whose paths name the same resource never returns a [nil] error, on any
    registry, the second acquire of the resource meeting the write lock
    that the first one took.  On a registry that satisfies its invariant,
    with room in the counts below the [int32] maximum for one increment per
    path, the call returns [OperationTimedOut] and leaves the registry as
    it found it. *)
Theorem GetLock_repeated_path_times_out (li : localLockInstance) (ctx : Context)
    (w : World) :
  ¬ NoDup (pathsJoinPrefix (volume li) (paths li)) →
  (∀ octx w', localLockInstance_GetLock li ctx w ≠ Ret (octx, None) w') ∧
  (∀ m, lockMap (ns w) = Some m →
        registry_ok m →
        headroom (Z.of_nat (length (paths li))) m →
        ∃ w', localLockInstance_GetLock li ctx w
                = Ret (None, Some OperationTimedOut) w' ∧
              ns w' = ns w).
Proof.
  intros Hdup.
  assert (∀ octx w', localLockInstance_GetLock li ctx w ≠ Ret (octx, None) w')
    as Hnever.
  { intros octx w' Hcall.
    assert (acquirePaths li ctx (getSource 2) false (clock (amb w)) O (paths li)
              (replicate (length (paths li)) 0) w = Ret (octx, None) w') as Hrun.
    { exact Hcall. }
    by eapply duplicate_blocks in Hrun. }
  split; [exact Hnever|]. intros m Hm Hok Hroom.
  destruct (acquirePaths_wf li false m ctx (getSource 2) (clock (amb w))
              Hok Hroom (paths li) [] w m eq_refl Hm (granted_on_nil _ _ _))
    as (res & w1 & Hrun & Hcase).
  destruct Hcase as [[-> _] | (granted & p & rest & _ & -> & Hw)].
  - exfalso. exact (Hnever (Some ctx) w1 Hrun).
  - exists w1. split; [exact Hrun|].
    cbv zeta in Hw. rewrite Hw. simpl. by apply nsmap_eta.
Qed.

(** ** Edge cases of the instances *)

(** X10.  An instance without paths: [GetLock] and [GetRLock] succeed with
    the caller's context, also on a [nil] map, and leave the registry as it
    is.  They read no timeout and call no mutex: the one event of the call
    is a success logged to the controller, with the time between the two
    readings of the clock.  [Unlock] and [RUnlock] do nothing. *)
Theorem GetLock_without_paths (readLock : bool) (li : localLockInstance)
    (ctx : Context) (w : World) :
  paths li = [] →
  (∃ w', (if readLock then localLockInstance_GetRLock li ctx
          else localLockInstance_GetLock li ctx) w = Ret (Some ctx, None) w' ∧
         ns w' = ns w ∧
         trace w' = trace w ++
           [EvLogSuccess (Time_Sub (clock (amb w')) (clock (amb w)))]) ∧
  (if readLock then localLockInstance_RUnlock li
   else localLockInstance_Unlock li) w = Ret tt w.
Proof.
  intros Hnil.
  unfold localLockInstance_GetRLock, localLockInstance_GetLock,
    localLockInstance_RUnlock, localLockInstance_Unlock.
  rewrite Hnil. destruct readLock; simpl; mrun; simpl;
    (split; [|done]); eexists; (split; [reflexivity|]); done.
Qed.

Lemma unlockPaths_absent vol b ps : ∀ w,
  (∀ p, p ∈ ps → look (pathJoin vol p) w = None) →
  unlockPaths vol b ps w = Ret tt w.
Proof.
  induction ps as [|p ps IH]; intros w Habs; [done|].
  simpl. unfold mbind, M_bind.
  rewrite unlock_absent; [|apply Habs; by left].
  apply IH. intros q Hq. apply Habs. by right.
Qed.

(** X11.  [Unlock] and [RUnlock] of a local instance none of whose
    resources has an entry (so a second release after the entries are gone,
    or any release on a [nil] map) return with the world unchanged: no mutex
    is called, nothing is counted down, nothing panics. *)
Theorem Unlock_without_entries (readLock : bool) (li : localLockInstance)
    (w : World) :
  (∀ p, p ∈ paths li → look (pathJoin (volume li) p) w = None) →
  (if readLock then localLockInstance_RUnlock li
   else localLockInstance_Unlock li) w = Ret tt w.
Proof.
  intros Habs. destruct readLock; by apply unlockPaths_absent.
Qed.

(** X12.  [distLockInstance.GetLock] and [GetRLock] always return, after
    one read of the timeout and one call of the mutex, with one of two
    results: the child context made by [context.WithCancel] and a [nil]
    error, having logged one success with the elapsed time and no failure;
    or the caller's own context (not [nil], unlike the local instance) with
    [OperationTimedOut], having logged one failure and no success. *)
Theorem dist_GetLock_outcomes (readLock : bool) (di : distLockInstance)
    (ctx : Context) (w : World) :
  ∃ w' tr,
    trace w' = trace w ++ tr ∧
    length (timeoutReads tr) = 1%nat ∧
    length (distAcquires tr) = 1%nat ∧
    (((if readLock then distLockInstance_GetRLock di ctx
       else distLockInstance_GetLock di ctx) w
        = Ret (Some (CtxWithCancel ctx), None) w' ∧
      logSuccesses tr = [Time_Sub (clock (amb w')) (clock (amb w))] ∧
      logFailures tr = O)
     ∨
     ((if readLock then distLockInstance_GetRLock di ctx
       else distLockInstance_GetLock di ctx) w
        = Ret (Some ctx, Some OperationTimedOut) w' ∧
      logSuccesses tr = [] ∧
      logFailures tr = 1%nat)).
Proof.
  destruct readLock.
  - rewrite dist_GetRLock_run. cbv zeta.
    destruct (negb _ && _ && _);
      (match goal with
       | |- context [Ret _ (mkWorld ?n ?a (trace w ++ ?l))] =>
           exists (mkWorld n a (trace w ++ l)), l
       end);
      (split; [reflexivity|]); (split; [done|]); (split; [done|]);
      [left | right]; done.
  - rewrite dist_GetLock_run. cbv zeta.
    destruct (negb _ && _ && _);
      (match goal with
       | |- context [Ret _ (mkWorld ?n ?a (trace w ++ ?l))] =>
           exists (mkWorld n a (trace w ++ l)), l
       end);
      (split; [reflexivity|]); (split; [done|]); (split; [done|]);
      [left | right]; done.
Qed.

Lemma headroom_empty k : k ≤ MaxInt32 → headroom k (∅ : gmap string nsLock).
Proof. intros Hk r. unfold refOf. rewrite lookup_empty. lia. Qed.

(** X13.  On a registry as [NewNSLock] makes it, for either backend, the
    first [GetLock] or [GetRLock] of an instance made by
    [NsLockMap.NewNSLock] returns: it cannot run into the [nil] map of the
    distributed registry, nor into the fatal error of a negative count.
    (The number of paths is an [int32] value.) *)
Theorem fresh_registry_GetLock_returns (readLock isDist : bool)
    (opsID vol : string) (ps : list string) (ctx : Context)
    (a : Ambient) (tr : list Event) :
  Z.of_nat (length ps) ≤ MaxInt32 →
  let n := NewNSLock isDist in
  let l := NsLockMap_NewNSLock n opsID vol ps in
  ∃ r w', (if readLock then RWLocker_GetRLock l ctx
           else RWLocker_GetLock l ctx) (mkWorld n a tr) = Ret r w'.
Proof.
  intros Hlen. cbv zeta. destruct isDist; simpl.
  - destruct (dist_GetLock_outcomes readLock
                (mkDistLockInstance (NewDRWMutex (pathsJoinPrefix vol ps)) opsID)
                ctx (mkWorld (mkNsLockMap true None) a tr))
      as (w' & tr' & _ & _ & _ & [[Hrun _] | [Hrun _]]);
      eexists _, w'; destruct readLock; exact Hrun.
  - set (li := mkLocalLockInstance vol (sort_Strings ps) opsID).
    set (w := mkWorld (mkNsLockMap false (Some ∅)) a tr).
    assert (headroom (Z.of_nat (length (paths li))) (∅ : gmap string nsLock))
      as Hroom.
    { apply headroom_empty. simpl.
      by rewrite (Permutation_length (sort_Strings_perm ps)). }
    destruct (acquirePaths_wf li readLock ∅ ctx (getSource 2) (clock (amb w))
                registry_ok_empty Hroom (paths li) [] w ∅ eq_refl eq_refl
                (granted_on_nil _ _ _))
      as (r & w' & Hrun & _).
    exists r, w'. destruct readLock; exact Hrun.
Qed.

End Further.


(** * The further properties on concrete runs *)

Lemma NewNSLock_ignores_caller_order_witness :
  isDistErasure (NewNSLock false) = false ∧
  ["z"; "a"] ≡ₚ ["a"; "z"] ∧
  (NsLockMap_NewNSLock (NewNSLock false) "op-1" "b" ["z"; "a"]
     = NsLockMap_NewNSLock (NewNSLock false) "op-1" "b" ["a"; "z"] ∧
   (Sorted string_le ["z"; "a"] →
    NsLockMap_NewNSLock (NewNSLock false) "op-1" "b" ["z"; "a"]
      = LocalLocker (mkLocalLockInstance "b" ["z"; "a"] "op-1"))).
Proof.
  split; [reflexivity|]. split; [apply perm_swap|].
  exact (NewNSLock_ignores_caller_order (NewNSLock false) "op-1" "b"
           ["z"; "a"] ["a"; "z"] eq_refl (perm_swap "a" "z" [])).
Defined.

Lemma lock_unlock_touch_own_entry_only_witness :
  "b/z" ≠ pathJoin "b" "a" ∧
  (look "b/z" (worldOf (lock requestCtx "b" "a" (getSource 2) "op-1" false second
                          (world0 heldZ [])))
     = look "b/z" (world0 heldZ []) ∧
   look "b/z" (worldOf (unlock "b" "a" false (world0 heldZ [])))
     = look "b/z" (world0 heldZ []) ∧
   isDistErasure (ns (worldOf (lock requestCtx "b" "a" (getSource 2) "op-1" false
                                 second (world0 heldZ []))))
     = isDistErasure (ns (world0 heldZ [])) ∧
   isDistErasure (ns (worldOf (unlock "b" "a" false (world0 heldZ []))))
     = isDistErasure (ns (world0 heldZ []))).
Proof.
  assert ("b/z" ≠ pathJoin "b" "a") as Hne.
  { vm_compute. discriminate. }
  split; [exact Hne|].
  exact (lock_unlock_touch_own_entry_only "b/z" requestCtx "b" "a" (getSource 2)
           "op-1" false second (world0 heldZ []) Hne).
Defined.

Lemma local_instance_touches_own_entries_only_witness :
  ("b/q" ∉ pathsJoinPrefix (volume instAZ) (paths instAZ)) ∧
  (look "b/q" (worldOf (localLockInstance_GetLock instAZ requestCtx (world0 heldZ [])))
     = look "b/q" (world0 heldZ []) ∧
   look "b/q" (worldOf (localLockInstance_GetRLock instAZ requestCtx (world0 heldZ [])))
     = look "b/q" (world0 heldZ []) ∧
   look "b/q" (worldOf (localLockInstance_Unlock instAZ (world0 heldZ [])))
     = look "b/q" (world0 heldZ []) ∧
   look "b/q" (worldOf (localLockInstance_RUnlock instAZ (world0 heldZ [])))
     = look "b/q" (world0 heldZ [])).
Proof.
  assert ("b/q" ∉ pathsJoinPrefix (volume instAZ) (paths instAZ)) as Hout.
  { intros Hin. vm_compute in Hin.
    apply elem_of_cons in Hin as [Heq | Hin]; [discriminate Heq|].
    apply elem_of_cons in Hin as [Heq | Hin]; [discriminate Heq|].
    by apply elem_of_nil in Hin. }
  split; [exact Hout|].
  exact (local_instance_touches_own_entries_only "b/q" instAZ requestCtx
           (world0 heldZ []) Hout).
Defined.

Lemma GetLock_then_Unlock_restores_witness :
  lockMap (ns (world0 readA [])) = Some readA ∧
  registry_ok readA ∧
  headroom (Z.of_nat (length (paths instAZ))) readA ∧
  localLockInstance_GetRLock instAZ requestCtx (world0 readA [])
    = Ret (Some requestCtx, None) readAZ ∧
  localLockInstance_RUnlock instAZ readAZ =
    Ret tt (mkWorld (ns (world0 readA [])) (amb readAZ)
              (trace readAZ ++ releaseEvents true (volume instAZ) (paths instAZ))).
Proof.
  assert (registry_ok readA) as Hok.
  { apply registry_ok_singleton. simpl. unfold MaxInt32. lia. }
  assert (headroom (Z.of_nat (length (paths instAZ))) readA) as Hroom.
  { apply headroom_singleton; simpl; unfold MaxInt32; lia. }
  assert (localLockInstance_GetRLock instAZ requestCtx (world0 readA [])
            = Ret (Some requestCtx, None) readAZ) as Hrun.
  { vm_compute. reflexivity. }
  split; [reflexivity|]. split; [exact Hok|]. split; [exact Hroom|].
  split; [exact Hrun|].
  exact (GetLock_then_Unlock_restores true instAZ requestCtx (world0 readA [])
           readAZ readA (Some requestCtx) eq_refl Hok Hroom Hrun).
Defined.

Lemma GetLock_counts_its_grants_witness :
  lockMap (ns (world0 readA [])) = Some readA ∧
  registry_ok readA ∧
  headroom (Z.of_nat (length (paths instAZ))) readA ∧
  localLockInstance_GetRLock instAZ requestCtx (world0 readA [])
    = Ret (Some requestCtx, None) readAZ ∧
  ∃ m1, lockMap (ns readAZ) = Some m1 ∧
        registry_ok m1 ∧
        ∀ r, refOf m1 r
             = refOf readA r + Z.of_nat (cnt (volume instAZ) r (paths instAZ)).
Proof.
  assert (registry_ok readA) as Hok.
  { apply registry_ok_singleton. simpl. unfold MaxInt32. lia. }
  assert (headroom (Z.of_nat (length (paths instAZ))) readA) as Hroom.
  { apply headroom_singleton; simpl; unfold MaxInt32; lia. }
  assert (localLockInstance_GetRLock instAZ requestCtx (world0 readA [])
            = Ret (Some requestCtx, None) readAZ) as Hrun.
  { vm_compute. reflexivity. }
  split; [reflexivity|]. split; [exact Hok|]. split; [exact Hroom|].
  split; [exact Hrun|].
  exact (GetLock_counts_its_grants true instAZ requestCtx (world0 readA [])
           readAZ readA (Some requestCtx) eq_refl Hok Hroom Hrun).
Defined.

Lemma lock_refused_restores_witness :
  lockMap (ns (world0 heldZ [])) = Some heldZ ∧
  registry_ok heldZ ∧
  lock requestCtx "b" "z" (getSource 2) "op-1" false second (world0 heldZ [])
    = Ret false (worldOf (lock requestCtx "b" "z" (getSource 2) "op-1" false second
                            (world0 heldZ []))) ∧
  worldOf (lock requestCtx "b" "z" (getSource 2) "op-1" false second (world0 heldZ []))
    = mkWorld (ns (world0 heldZ [])) (interfereA (amb (world0 heldZ [])))
        (trace (world0 heldZ []) ++ [EvAcquire (pathJoin "b" "z") false second false]).
Proof.
  assert (registry_ok heldZ) as Hok.
  { apply registry_ok_singleton. simpl. unfold MaxInt32. lia. }
  assert (lock requestCtx "b" "z" (getSource 2) "op-1" false second (world0 heldZ [])
            = Ret false (worldOf (lock requestCtx "b" "z" (getSource 2) "op-1" false
                                    second (world0 heldZ [])))) as Hrun.
  { vm_compute. reflexivity. }
  split; [reflexivity|]. split; [exact Hok|]. split; [exact Hrun|].
  exact (lock_refused_restores requestCtx "b" "z" (getSource 2) "op-1" false second
           (world0 heldZ []) _ heldZ eq_refl Hok Hrun).
Defined.

Lemma GetLock_stops_at_first_refusal_witness :
  localLockInstance_GetLock instAZ requestCtx (world0 heldZ [])
    = Ret (None, Some OperationTimedOut)
          (worldOf (localLockInstance_GetLock instAZ requestCtx (world0 heldZ []))) ∧
  ∃ granted p rest tr,
    paths instAZ = granted ++ p :: rest ∧
    trace (worldOf (localLockInstance_GetLock instAZ requestCtx (world0 heldZ [])))
      = trace (world0 heldZ []) ++ tr ∧
    acquires tr =
      map (λ q, (pathJoin (volume instAZ) q, false, true)) granted
      ++ [(pathJoin (volume instAZ) p, false, false)].
Proof.
  assert (localLockInstance_GetLock instAZ requestCtx (world0 heldZ [])
            = Ret (None, Some OperationTimedOut)
                (worldOf (localLockInstance_GetLock instAZ requestCtx
                            (world0 heldZ [])))) as Hrun.
  { vm_compute. reflexivity. }
  split; [exact Hrun|].
  exact (GetLock_stops_at_first_refusal false instAZ requestCtx (world0 heldZ []) _
           None OperationTimedOut Hrun).
Defined.

Lemma GetLock_conflict_times_out_witness :
  lockMap (ns (world0 heldZ [])) = Some heldZ ∧
  "b/z" ∈ pathsJoinPrefix (volume instAZ) (paths instAZ) ∧
  heldZ !! "b/z" = Some (mkNsLock 1 (mkLRWMutex true 0)) ∧
  ¬ grantable true (mu (mkNsLock 1 (mkLRWMutex true 0))) ∧
  registry_ok heldZ ∧
  headroom (Z.of_nat (length (paths instAZ))) heldZ ∧
  (∀ octx w', localLockInstance_GetRLock instAZ requestCtx (world0 heldZ [])
              ≠ Ret (octx, None) w') ∧
  ∃ w', localLockInstance_GetRLock instAZ requestCtx (world0 heldZ [])
          = Ret (None, Some OperationTimedOut) w' ∧
        ns w' = ns (world0 heldZ []).
Proof.
  assert (registry_ok heldZ) as Hok.
  { apply registry_ok_singleton. simpl. unfold MaxInt32. lia. }
  assert (headroom (Z.of_nat (length (paths instAZ))) heldZ) as Hroom.
  { apply headroom_singleton; simpl; unfold MaxInt32; lia. }
  assert ("b/z" ∈ pathsJoinPrefix (volume instAZ) (paths instAZ)) as Hin.
  { apply list_elem_of_further, list_elem_of_here. }
  assert (heldZ !! "b/z" = Some (mkNsLock 1 (mkLRWMutex true 0))) as Hat.
  { apply lookup_singleton_eq. }
  assert (¬ grantable true (mu (mkNsLock 1 (mkLRWMutex true 0)))) as Hheld.
  { simpl. discriminate. }
  split; [reflexivity|]. split; [exact Hin|]. split; [exact Hat|].
  split; [exact Hheld|]. split; [exact Hok|]. split; [exact Hroom|].
  split.
  - exact (proj1 (GetLock_conflict_times_out true instAZ requestCtx
                    (world0 heldZ []) heldZ "b/z" (mkNsLock 1 (mkLRWMutex true 0))
                    eq_refl Hin Hat Hheld)).
  - exact (proj2 (GetLock_conflict_times_out true instAZ requestCtx
                    (world0 heldZ []) heldZ "b/z" (mkNsLock 1 (mkLRWMutex true 0))
                    eq_refl Hin Hat Hheld) Hok Hroom).
Defined.

Lemma GetLock_repeated_path_times_out_witness :
  ¬ NoDup (pathsJoinPrefix (volume instAA) (paths instAA)) ∧
  lockMap (ns freshWorld) = Some ∅ ∧
  registry_ok (∅ : gmap string nsLock) ∧
  headroom (Z.of_nat (length (paths instAA))) (∅ : gmap string nsLock) ∧
  (∀ octx w', localLockInstance_GetLock instAA requestCtx freshWorld
              ≠ Ret (octx, None) w') ∧
  ∃ w', localLockInstance_GetLock instAA requestCtx freshWorld
          = Ret (None, Some OperationTimedOut) w' ∧
        ns w' = ns freshWorld.
Proof.
  assert (headroom (Z.of_nat (length (paths instAA))) (∅ : gmap string nsLock))
    as Hroom.
  { apply headroom_empty. simpl. unfold MaxInt32. lia. }
  assert (¬ NoDup (pathsJoinPrefix (volume instAA) (paths instAA))) as Hdup.
  { intros Hnd. apply NoDup_cons in Hnd as [Hnin _]. apply Hnin.
    apply list_elem_of_here. }
  split; [exact Hdup|]. split; [reflexivity|]. split; [exact registry_ok_empty|].
  split; [exact Hroom|]. split.
  - exact (proj1 (GetLock_repeated_path_times_out instAA requestCtx freshWorld Hdup)).
  - exact (proj2 (GetLock_repeated_path_times_out instAA requestCtx freshWorld Hdup)
             ∅ eq_refl registry_ok_empty Hroom).
Defined.

Lemma GetLock_without_paths_witness :
  paths (mkLocalLockInstance "b" [] "op-1") = [] ∧
  (∃ w', localLockInstance_GetLock (mkLocalLockInstance "b" [] "op-1") requestCtx
           (world0 heldZ []) = Ret (Some requestCtx, None) w' ∧
         ns w' = ns (world0 heldZ []) ∧
         trace w' = trace (world0 heldZ []) ++
           [EvLogSuccess (Time_Sub (clock (amb w')) (clock (amb (world0 heldZ []))))]) ∧
  localLockInstance_Unlock (mkLocalLockInstance "b" [] "op-1") (world0 heldZ [])
    = Ret tt (world0 heldZ []).
Proof.
  split; [reflexivity|].
  exact (GetLock_without_paths false (mkLocalLockInstance "b" [] "op-1") requestCtx
           (world0 heldZ []) eq_refl).
Defined.

Lemma Unlock_without_entries_witness :
  (∀ p, p ∈ paths (mkLocalLockInstance "b" ["a"] "op-1") →
        look (pathJoin (volume (mkLocalLockInstance "b" ["a"] "op-1")) p)
          (world0 heldZ []) = None) ∧
  localLockInstance_Unlock (mkLocalLockInstance "b" ["a"] "op-1") (world0 heldZ [])
    = Ret tt (world0 heldZ []).
Proof.
  assert (∀ p, p ∈ paths (mkLocalLockInstance "b" ["a"] "op-1") →
               look (pathJoin (volume (mkLocalLockInstance "b" ["a"] "op-1")) p)
                 (world0 heldZ []) = None) as Habs.
  { intros p Hp. apply list_elem_of_singleton in Hp as ->.
    vm_compute. reflexivity. }
  split; [exact Habs|].
  exact (Unlock_without_entries false (mkLocalLockInstance "b" ["a"] "op-1")
           (world0 heldZ []) Habs).
Defined.

Lemma fresh_registry_GetLock_returns_witness :
  Z.of_nat (length ["z"; "a"]) ≤ MaxInt32 ∧
  ∃ r w',
    RWLocker_GetLock (NsLockMap_NewNSLock (NewNSLock false) "op-1" "b" ["z"; "a"])
      requestCtx (mkWorld (NewNSLock false) (ambient0 []) []) = Ret r w'.
Proof.
  assert (Z.of_nat (length ["z"; "a"]) ≤ MaxInt32) as Hlen.
  { simpl. unfold MaxInt32. lia. }
  split; [exact Hlen|].
  exact (fresh_registry_GetLock_returns false false "op-1" "b" ["z"; "a"] requestCtx
           (ambient0 []) [] Hlen).
Defined.
